(** * node-vorbis: the [Decoder] of lib/decoder.js as an event-driven machine

    The decoder is a Node.js object whose methods are run by three event
    sources: the ogg stream ('packet' events, [packetin]), the native binding
    (the completion callback of [vorbis_synthesis_headerin]) and the Readable
    base class ([_read]).  Every method runs to completion; the listeners of
    the decoder's own 'blockin' and 'pcmout' events run nested inside the
    [emit] call.  The embedding keeps that structure: the fields of [this], the
    [once] listeners, the stack of listeners an [emit] still has to run, the
    [process.nextTick] queue, and a trace of everything observable.

    What lies outside lib/decoder.js is fixed as follows.
    - The binding is a parameter ([Binding]); [vorbis_info_init] and
      [vorbis_comment_init] of the constructor give its initial state.  The
      work of [vorbis_synthesis_headerin] is done when its callback runs.
    - [emit] calls a copy of the listener array, and a [once] wrapper runs its
      listener the first time it is called only (EventEmitter of Node 0.10
      and later).
    - The [done] callbacks and the listeners of 'comments', 'format' and
      'error' belong to the application; calling them is an event of the
      trace, and what the application does in return arrives as a later
      [label].  An 'error' listener is taken to be attached.
    - [b < 0] on what the binding returned follows the language: a number
      is compared as it is, a Buffer through [toString()] and ToNumber
      ([buffer_lt_zero]).
    - The ogg stream and the Readable base class may call packetin and
      [_read] in any order the event loop allows; how they really call
      them (one packet at a time, none after the end-of-stream packet; one
      [_read] at a time, none after the terminal result) is a condition on
      schedules ([serialized], [source_contract], [readable]) that a
      theorem names where it needs it. *)

From Stdlib Require Import ZArith List Bool Lia String Arith.
From Stdlib.Strings Require Import Byte.
Import ListNotations.
Local Open Scope Z_scope.

(** ** Values *)

(** An "ogg_packet" as the decoder reads it: [packet.packetno],
    [packet.e_o_s], and the bytes the binding parses. *)
Record ogg_packet := mkPacket {
  packetno : Z;
  e_o_s : bool;
  payload : list byte
}.

(** What [binding.vorbis_synthesis_pcmout] hands back: a number (0, or a
    negative status) or a Buffer of PCM data, with its bytes. *)
Inductive pcm :=
| Num (z : Z)
| Buf (b : list byte).

(** [0 === b] *)
Definition strict_zero (b : pcm) : bool :=
  match b with
  | Num z => z =? 0
  | Buf _ => false
  end.

(** ** A Buffer compared with a number

    [b < 0] converts an operand that is an object to a primitive.  A Buffer
    has no [valueOf] of its own, so [toString()] is used: the bytes of the
    Buffer read as UTF-8.  The string is converted by ToNumber: white space
    and line terminators are dropped at both ends, and what is left has to
    be a numeric literal; if it is not, the result is NaN and the comparison
    is false.  A literal below zero starts with [-] and is decimal (a
    hexadecimal, octal or binary literal takes no sign), or is
    [-Infinity]. *)

Definition code (b : byte) : Z := Z.of_N (Byte.to_N b).

(** The white space characters that take three bytes: U+1680, U+2000 to
    U+200A, U+2028, U+2029, U+202F, U+205F, U+3000 and U+FEFF. *)
Definition white_space3 (a b c : Z) : bool :=
  (a =? 225) && (b =? 154) && (c =? 128)
  || (a =? 226) && (b =? 128)
     && ((128 <=? c) && (c <=? 138) || (c =? 168) || (c =? 169) || (c =? 175))
  || (a =? 226) && (b =? 129) && (c =? 159)
  || (a =? 227) && (b =? 128) && (c =? 128)
  || (a =? 239) && (b =? 187) && (c =? 191).

(** StrWhiteSpace at the front of a string, on its UTF-8 bytes: TAB, LF, VT,
    FF, CR, space, U+00A0 and the characters of [white_space3]. *)
Fixpoint skip_white_space (l : list byte) : list byte :=
  match l with
  | [] => []
  | a :: r =>
      if (9 <=? code a) && (code a <=? 13) || (code a =? 32)
      then skip_white_space r
      else
        match r with
        | [] => l
        | b :: r1 =>
            if (code a =? 194) && (code b =? 160) then skip_white_space r1
            else
              match r1 with
              | [] => l
              | c :: r2 =>
                  if white_space3 (code a) (code b) (code c)
                  then skip_white_space r2
                  else l
              end
        end
  end.

(** DecimalDigits at the front of [l]: their value appended to [acc], how
    many there are, and what follows them. *)
Fixpoint decimal_digits (l : list byte) (acc n : Z) : Z * Z * list byte :=
  match l with
  | [] => (acc, n, [])
  | a :: r =>
      if (48 <=? code a) && (code a <=? 57)
      then decimal_digits r (10 * acc + (code a - 48)) (n + 1)
      else (acc, n, l)
  end.

(** ExponentPart, if there is one: [e] or [E], a sign or none, and at least
    one digit. *)
Definition exponent_part (l : list byte) : option (Z * list byte) :=
  match l with
  | [] => Some (0, [])
  | a :: r =>
      if (code a =? 101) || (code a =? 69) then
        let (sign, r1) :=
          match r with
          | s :: r' =>
              if code s =? 43 then (1, r')
              else if code s =? 45 then (-1, r')
              else (1, r)
          | [] => (1, r)
          end in
        let '(e, n, r2) := decimal_digits r1 0 0 in
        if n =? 0 then None else Some (sign * e, r2)
      else Some (0, l)
  end.

(** StrUnsignedDecimalLiteral other than [Infinity], as digits [m] and a
    power of ten [k], the value being [m * 10 ^ k]: [1.5e3], [1.], [.5],
    [15]. *)
Definition unsigned_decimal (l : list byte) : option (Z * Z * list byte) :=
  let '(i, ni, r1) := decimal_digits l 0 0 in
  match r1 with
  | [] => if ni =? 0 then None else Some (i, 0, [])
  | a :: r2 =>
      if code a =? 46 then
        let '(m, nf, r3) := decimal_digits r2 i 0 in
        if (ni =? 0) && (nf =? 0) then None
        else
          match exponent_part r3 with
          | Some (e, r4) => Some (m, e - nf, r4)
          | None => None
          end
      else if ni =? 0 then None
      else
        match exponent_part r1 with
        | Some (e, r4) => Some (i, e, r4)
        | None => None
        end
  end.

(** [m * 10 ^ k], rounded to a double, is not zero: it is above [2 ^ -1075],
    half of the smallest double. *)
Definition rounds_above_zero (m k : Z) : bool :=
  if m <=? 0 then false
  else if 0 <=? k then true
  else 10 ^ (- k) <? m * 2 ^ 1075.

(** The bytes of [Infinity]. *)
Definition Infinity : list byte := [x49; x6e; x66; x69; x6e; x69; x74; x79].

Fixpoint strip_prefix (p l : list byte) : option (list byte) :=
  match p, l with
  | [], _ => Some l
  | a :: p', b :: l' => if Byte.eqb a b then strip_prefix p' l' else None
  | _ :: _, [] => None
  end.

Definition all_white_space (l : list byte) : bool :=
  match skip_white_space l with [] => true | _ :: _ => false end.

(** [b < 0] for a Buffer with the bytes [l]. *)
Definition buffer_lt_zero (l : list byte) : bool :=
  match skip_white_space l with
  | [] => false
  | s :: r =>
      if code s =? 45 then
        match strip_prefix Infinity r with
        | Some rest => all_white_space rest
        | None =>
            match unsigned_decimal r with
            | Some (m, k, rest) => all_white_space rest && rounds_above_zero m k
            | None => false
            end
        end
      else false
  end.

(** [b < 0] *)
Definition lt_zero (b : pcm) : bool :=
  match b with
  | Num z => z <? 0
  | Buf l => buffer_lt_zero l
  end.

(** The [Error] objects the decoder creates, one constructor per message. *)
Inductive js_error :=
| headerin_failed (r : Z)                  (* 'headerin() failed: ' + r *)
| vorbis_synthesis_failed (r : Z)          (* 'vorbis_synthesis() failed: ' + r *)
| vorbis_synthesis_blockin_failed (r : Z)  (* 'vorbis_synthesis_blockin() failed: ' + r *)
| vorbis_synthesis_pcmout_failed (b : pcm) (* 'vorbis_synthesis_pcmout() failed: ' + b *)
| init_failed (r : Z).                     (* new Error(r) in _synthesis_init *)

Record comment_array_t := mkComments {
  vendor_of : string;
  comment_list : list string
}.

Record format_t := mkFormat {
  format_channels : Z;
  format_sampleRate : Z
}.

(** ** The native binding

    [require('./binding')] is native code; the decoder only relies on the
    status each call returns.  It is taken as a parameter: a state (the
    structs behind [vi], [vc], [vd], [vb]) and one function per entry point. *)
Record Binding := mkBinding {
  native : Type;
  vorbis_synthesis_headerin : ogg_packet -> native -> Z * native;
  comment_array : native -> comment_array_t;
  get_format : native -> format_t;
  vorbis_synthesis_init : native -> Z * native;
  vorbis_block_init : native -> Z * native;
  vorbis_synthesis : ogg_packet -> native -> Z * native;
  vorbis_synthesis_blockin : native -> Z * native;
  vorbis_synthesis_pcmout : option Z -> native -> pcm * native
}.

(** ** Observable events *)

(** [this.emit(name, ...)] *)
Inductive emitted :=
| ev_comments (c : comment_array_t)
| ev_format (f : format_t)
| ev_blockin
| ev_pcmout
| ev_error (e : js_error).

(** What the [done] callback of [_read] is called with:
    [done(err)], [done(null, null)], [done(null, b)]. *)
Inductive read_result :=
| read_failure (e : js_error)
| read_eof
| read_data (b : pcm).

Inductive event :=
| Ev_packet (p : ogg_packet)            (* the stream's 'packet' event enters packetin *)
| Ev_read (n : Z)                       (* Readable calls _read(n, done) *)
| Call_headerin (p : ogg_packet)        (* binding.vorbis_synthesis_headerin started *)
| Ret_headerin (p : ogg_packet) (r : Z) (* ... and its callback received r *)
| Call_synthesis_init (r : Z)
| Call_block_init (r : Z)
| Call_synthesis (p : ogg_packet) (r : Z)
| Call_blockin (r : Z)
| Call_pcmout (b : pcm)
| Emit (e : emitted)
| Once_pcmout (id : nat) (p : ogg_packet)   (* this.once('pcmout', packetin.bind(this, p, done)) *)
| Once_blockin (id : nat) (n : Z)           (* this.once('blockin', _read.bind(this, n, done)) *)
| Fired_pcmout (id : nat) (p : ogg_packet)  (* that wrapper runs: packetin(p, done) again *)
| Fired_blockin (id : nat) (n : Z)          (* that wrapper runs: _read(n, done) again *)
| Done_packet (p : ogg_packet) (err : option js_error)
| Done_read (n : Z) (r : read_result)
| Uncaught_TypeError.

(** ** The decoder object *)

Record Decoder := mkDecoder {
  _stream : option Z;          (* the ogg stream (its serialno), or null *)
  _headerCount : Z;
  vd : bool;                   (* false: null, true: allocated *)
  vb : bool;
  _blockin : bool;
  _gotEos : bool;
  comments : option comment_array_t;
  vendor : option string;
  format : option format_t;    (* the keys copied by [for (r in format)] *)
  on_pcmout : list (nat * ogg_packet);  (* once-listeners of 'pcmout' *)
  on_blockin : list (nat * Z)           (* once-listeners of 'blockin' *)
}.

(** [this.channels] *)
Definition channels (d : Decoder) : option Z :=
  option_map format_channels (format d).

Definition set_stream v d :=
  mkDecoder v (_headerCount d) (vd d) (vb d) (_blockin d) (_gotEos d)
            (comments d) (vendor d) (format d) (on_pcmout d) (on_blockin d).
Definition set_headerCount v d :=
  mkDecoder (_stream d) v (vd d) (vb d) (_blockin d) (_gotEos d)
            (comments d) (vendor d) (format d) (on_pcmout d) (on_blockin d).
Definition set_vd_vb v d :=
  mkDecoder (_stream d) (_headerCount d) v v (_blockin d) (_gotEos d)
            (comments d) (vendor d) (format d) (on_pcmout d) (on_blockin d).
Definition set_blockin v d :=
  mkDecoder (_stream d) (_headerCount d) (vd d) (vb d) v (_gotEos d)
            (comments d) (vendor d) (format d) (on_pcmout d) (on_blockin d).
Definition set_gotEos v d :=
  mkDecoder (_stream d) (_headerCount d) (vd d) (vb d) (_blockin d) v
            (comments d) (vendor d) (format d) (on_pcmout d) (on_blockin d).
Definition set_comments c d :=
  mkDecoder (_stream d) (_headerCount d) (vd d) (vb d) (_blockin d) (_gotEos d)
            (Some c) (Some (vendor_of c)) (format d) (on_pcmout d) (on_blockin d).
Definition set_format f d :=
  mkDecoder (_stream d) (_headerCount d) (vd d) (vb d) (_blockin d) (_gotEos d)
            (comments d) (vendor d) (Some f) (on_pcmout d) (on_blockin d).
Definition set_on_pcmout l d :=
  mkDecoder (_stream d) (_headerCount d) (vd d) (vb d) (_blockin d) (_gotEos d)
            (comments d) (vendor d) (format d) l (on_blockin d).
Definition set_on_blockin l d :=
  mkDecoder (_stream d) (_headerCount d) (vd d) (vb d) (_blockin d) (_gotEos d)
            (comments d) (vendor d) (format d) (on_pcmout d) l.

(** What an [emit] in progress, or the method that called it, still has to
    run. *)
Inductive task :=
| Fire_pcmout (id : nat)          (* the once-wrapper of a deferred packetin *)
| Fire_blockin (id : nat)         (* the once-wrapper of a waiting _read *)
| Then_nextTick (p : ogg_packet). (* packetin after emit('blockin'): process.nextTick(done) *)

Section Machine.

Variable B : Binding.

(** The decoder in its runtime. *)
Record World := mkWorld {
  this : Decoder;
  engine : native B;               (* the native structs *)
  listening : bool;                (* packetin is a 'packet' listener of the stream *)
  headerin_inflight : list ogg_packet;  (* headerin calls whose callback is due *)
  stack : list task;               (* listeners the running emits still call *)
  nextTick : list ogg_packet;      (* done callbacks queued by process.nextTick *)
  fresh : nat;                     (* identity of the next once-wrapper *)
  trace : list event;
  crashed : bool                   (* an exception left the decoder's code *)
}.

Definition upd_this (f : Decoder -> Decoder) (w : World) : World :=
  mkWorld (f (this w)) (engine w) (listening w) (headerin_inflight w) (stack w)
          (nextTick w) (fresh w) (trace w) (crashed w).
Definition set_engine (e : native B) (w : World) : World :=
  mkWorld (this w) e (listening w) (headerin_inflight w) (stack w)
          (nextTick w) (fresh w) (trace w) (crashed w).
Definition set_listening (v : bool) (w : World) : World :=
  mkWorld (this w) (engine w) v (headerin_inflight w) (stack w)
          (nextTick w) (fresh w) (trace w) (crashed w).
Definition set_inflight (l : list ogg_packet) (w : World) : World :=
  mkWorld (this w) (engine w) (listening w) l (stack w)
          (nextTick w) (fresh w) (trace w) (crashed w).
Definition set_stack (s : list task) (w : World) : World :=
  mkWorld (this w) (engine w) (listening w) (headerin_inflight w) s
          (nextTick w) (fresh w) (trace w) (crashed w).
Definition set_nextTick (q : list ogg_packet) (w : World) : World :=
  mkWorld (this w) (engine w) (listening w) (headerin_inflight w) (stack w)
          q (fresh w) (trace w) (crashed w).
Definition set_fresh (n : nat) (w : World) : World :=
  mkWorld (this w) (engine w) (listening w) (headerin_inflight w) (stack w)
          (nextTick w) n (trace w) (crashed w).
Definition log (evs : list event) (w : World) : World :=
  mkWorld (this w) (engine w) (listening w) (headerin_inflight w) (stack w)
          (nextTick w) (fresh w) (trace w ++ evs) (crashed w).

(** An exception unwinds every emit in progress. *)
Definition throw (w : World) : World :=
  mkWorld (this w) (engine w) (listening w) (headerin_inflight w) []
          (nextTick w) (fresh w) (trace w ++ [Uncaught_TypeError]) true.

(** [function Decoder (stream, opts)] *)
Definition new_Decoder (serialno : Z) : Decoder :=
  mkDecoder (Some serialno) 3 false false false false None None None [] [].

(** The decoder just constructed, [stream.on('packet', this.packetin)] done. *)
Definition init (serialno : Z) (e : native B) : World :=
  mkWorld (new_Decoder serialno) e true [] [] [] 0%nat [] false.

(** ** EventEmitter *)

(** [this.once('pcmout', this.packetin.bind(this, packet, done))] *)
Definition once_pcmout (p : ogg_packet) (w : World) : World :=
  let id := fresh w in
  log [Once_pcmout id p]
      (set_fresh (S id)
         (upd_this (fun d => set_on_pcmout (on_pcmout d ++ [(id, p)]) d) w)).

(** [this.once('blockin', this._read.bind(this, bytes, done))] *)
Definition once_blockin (n : Z) (w : World) : World :=
  let id := fresh w in
  log [Once_blockin id n]
      (set_fresh (S id)
         (upd_this (fun d => set_on_blockin (on_blockin d ++ [(id, n)]) d) w)).

(** [this.emit('blockin')] followed by the rest [k] of the caller: emit calls
    a copy of the listener array, one wrapper after the other. *)
Definition emit_blockin (k : list task) (w : World) : World :=
  set_stack (map (fun l => Fire_blockin (fst l)) (on_blockin (this w)) ++ k ++ stack w)
            (log [Emit ev_blockin] w).

(** [this.emit('pcmout')], the last statement of its caller. *)
Definition emit_pcmout (w : World) : World :=
  set_stack (map (fun l => Fire_pcmout (fst l)) (on_pcmout (this w)) ++ stack w)
            (log [Emit ev_pcmout] w).

(** [process.nextTick(done)] *)
Definition process_nextTick (p : ogg_packet) (w : World) : World :=
  set_nextTick (nextTick w ++ [p]) w.

(** A once-wrapper removes itself when it runs, and runs its listener only
    the first time. *)
Fixpoint take_listener {A : Type} (id : nat) (l : list (nat * A))
  : option (A * list (nat * A)) :=
  match l with
  | [] => None
  | (i, a) :: r =>
      if Nat.eqb i id then Some (a, r)
      else match take_listener id r with
           | Some (x, r') => Some (x, (i, a) :: r')
           | None => None
           end
  end.

(** The [k]-th element of a list, and the list without it. *)
Fixpoint take_nth {A : Type} (k : nat) (l : list A) : option (A * list A) :=
  match l with
  | [] => None
  | a :: r =>
      match k with
      | O => Some (a, r)
      | S k' =>
          match take_nth k' r with
          | Some (x, r') => Some (x, a :: r')
          | None => None
          end
      end
  end.

(** ** Methods *)

(** [Decoder.prototype._error]: with [this._stream] already null the call
    [this._stream.removeListener] throws. *)
Definition _error (err : js_error) (w : World) : option World :=
  match _stream (this w) with
  | None => None
  | Some _ =>
      Some (log [Emit (ev_error err)]
              (upd_this (set_stream None) (set_listening false w)))
  end.

(** [Decoder.prototype._synthesis_init] *)
Definition _synthesis_init (w : World) : option js_error * World :=
  let w0 := upd_this (set_vd_vb true) w in
  let (r, e1) := vorbis_synthesis_init B (engine w0) in
  let w1 := log [Call_synthesis_init r] (set_engine e1 w0) in
  if negb (r =? 0) then (Some (init_failed r), w1)
  else
    let (r', e2) := vorbis_block_init B (engine w1) in
    let w2 := log [Call_block_init r'] (set_engine e2 w1) in
    if negb (r' =? 0) then (Some (init_failed r'), w2)
    else (None, w2).

(** The callback [function (r) { ... }.bind(this)] given to
    [vorbis_synthesis_headerin], run when the binding completes the call for
    packet [p]. *)
Definition headerin_callback (p : ogg_packet) (w : World) : World :=
  let (r, e1) := vorbis_synthesis_headerin B p (engine w) in
  let w1 := log [Ret_headerin p r] (set_engine e1 w) in
  if negb (r =? 0) then
    log [Done_packet p (Some (headerin_failed r))] w1
  else
    let w2 := upd_this (fun d => set_headerCount (_headerCount d - 1) d) w1 in
    if _headerCount (this w2) =? 0 then
      let c := comment_array B (engine w2) in
      let w3 := log [Emit (ev_comments c)] (upd_this (set_comments c) w2) in
      let f := get_format B (engine w3) in
      let w4 := log [Emit (ev_format f)] (upd_this (set_format f) w3) in
      match _synthesis_init w4 with
      | (Some err, w5) => log [Done_packet p (Some err)] w5
      | (None, w5) => log [Done_packet p None] w5
      end
    else
      log [Done_packet p None] w2.

(** [Decoder.prototype.packetin] *)
Definition packetin (p : ogg_packet) (w : World) : World :=
  if 0 <? _headerCount (this w) then
    log [Call_headerin p] (set_inflight (headerin_inflight w ++ [p]) w)
  else if _blockin (this w) then
    once_pcmout p w
  else
    let (r, e1) := vorbis_synthesis B p (engine w) in
    let w1 := log [Call_synthesis p r] (set_engine e1 w) in
    if negb (r =? 0) then
      match _error (vorbis_synthesis_failed r) w1 with
      | Some w2 => process_nextTick p w2
      | None => throw w1
      end
    else
      let w2 := if e_o_s p then upd_this (set_gotEos true) w1 else w1 in
      let (r', e2) := vorbis_synthesis_blockin B (engine w2) in
      let w3 := log [Call_blockin r'] (set_engine e2 w2) in
      if negb (r' =? 0) then
        match _error (vorbis_synthesis_blockin_failed r') w3 with
        | Some w4 => process_nextTick p w4
        | None => throw w3
        end
      else
        emit_blockin [Then_nextTick p] (upd_this (set_blockin true) w3).

(** [Decoder.prototype._read] *)
Definition _read (n : Z) (w : World) : World :=
  if negb (_blockin (this w)) then
    once_blockin n w
  else
    let (b, e1) := vorbis_synthesis_pcmout B (channels (this w)) (engine w) in
    let w1 := log [Call_pcmout b] (set_engine e1 w) in
    if strict_zero b then
      let w2 := upd_this (set_blockin false) w1 in
      let w3 := if _gotEos (this w2)
                then log [Done_read n read_eof] w2
                else once_blockin n w2 in
      emit_pcmout w3
    else if lt_zero b then
      log [Done_read n (read_failure (vorbis_synthesis_pcmout_failed b))] w1
    else
      log [Done_read n (read_data b)] w1.

(** ** The event loop *)

Definition run_task (t : task) (w : World) : World :=
  match t with
  | Fire_pcmout id =>
      match take_listener id (on_pcmout (this w)) with
      | Some (p, rest) =>
          packetin p (log [Fired_pcmout id p] (upd_this (set_on_pcmout rest) w))
      | None => w
      end
  | Fire_blockin id =>
      match take_listener id (on_blockin (this w)) with
      | Some (n, rest) =>
          _read n (log [Fired_blockin id n] (upd_this (set_on_blockin rest) w))
      | None => w
      end
  | Then_nextTick p => process_nextTick p w
  end.

(** What can happen next. *)
Inductive label :=
| Packet (p : ogg_packet)   (* the ogg stream emits 'packet' *)
| Headerin_done (k : nat)   (* the binding completes a headerin call, the k-th in flight *)
| Read (n : Z)              (* Readable asks for data *)
| Tick                      (* the next process.nextTick callback runs *)
| Tau.                      (* the emit in progress calls its next listener *)

(** Nothing of the decoder is running and no tick is due: the event loop
    takes the next outside event. *)
Definition quiescent (w : World) : bool :=
  match stack w, nextTick w with
  | [], [] => true
  | _, _ => false
  end.

Definition step (l : label) (w : World) : option World :=
  if crashed w then None
  else
    match l with
    | Tau =>
        match stack w with
        | t :: rest => Some (run_task t (set_stack rest w))
        | [] => None
        end
    | Tick =>
        match stack w, nextTick w with
        | [], p :: q => Some (log [Done_packet p None] (set_nextTick q w))
        | _, _ => None
        end
    | Packet p =>
        if quiescent w && listening w
        then Some (packetin p (log [Ev_packet p] w))
        else None
    | Headerin_done k =>
        if quiescent w then
          match take_nth k (headerin_inflight w) with
          | Some (p, q) => Some (headerin_callback p (set_inflight q w))
          | None => None
          end
        else None
    | Read n =>
        if quiescent w then Some (_read n (log [Ev_read n] w)) else None
    end.

Fixpoint run (ls : list label) (w : World) : option World :=
  match ls with
  | [] => Some w
  | l :: r =>
      match step l w with
      | Some w' => run r w'
      | None => None
      end
  end.

End Machine.

Arguments this {B} w.
Arguments engine {B} w.
Arguments listening {B} w.
Arguments headerin_inflight {B} w.
Arguments stack {B} w.
Arguments nextTick {B} w.
Arguments fresh {B} w.
Arguments trace {B} w.
Arguments crashed {B} w.

(** ** Reading a trace *)

Definition count (f : event -> bool) (t : list event) : nat :=
  List.length (filter f t).

Definition is_packet (e : event) : bool :=
  match e with Ev_packet _ => true | _ => false end.
Definition is_eos_packet (e : event) : bool :=
  match e with Ev_packet p => e_o_s p | _ => false end.
Definition is_packet_done (e : event) : bool :=
  match e with Done_packet _ _ => true | _ => false end.
Definition is_call_headerin (e : event) : bool :=
  match e with Call_headerin _ => true | _ => false end.
Definition is_header_ok (e : event) : bool :=
  match e with Ret_headerin _ r => r =? 0 | _ => false end.
(** block-submit: [binding.vorbis_synthesis] *)
Definition is_block_submit (e : event) : bool :=
  match e with Call_synthesis _ _ => true | _ => false end.
(** a pcm-extract call that returned zero *)
Definition is_pcmout_zero (e : event) : bool :=
  match e with Call_pcmout b => strict_zero b | _ => false end.
(** a failed block-synthesis or block-accumulation step *)
Definition is_decode_failure (e : event) : bool :=
  match e with
  | Call_synthesis _ r => negb (r =? 0)
  | Call_blockin r => negb (r =? 0)
  | _ => false
  end.
(** anything of the audio phase: a decode or extract call of the engine, or
    a PCM chunk handed to the consumer *)
Definition is_audio (e : event) : bool :=
  match e with
  | Call_synthesis _ _ | Call_blockin _ | Call_pcmout _ => true
  | Done_read _ (read_data _) => true
  | _ => false
  end.
(** any call into the binding *)
Definition is_engine_call (e : event) : bool :=
  match e with
  | Call_headerin _ | Ret_headerin _ _ | Call_synthesis_init _
  | Call_block_init _ | Call_synthesis _ _ | Call_blockin _
  | Call_pcmout _ => true
  | _ => false
  end.
Definition is_comments (e : event) : bool :=
  match e with Emit (ev_comments _) => true | _ => false end.
Definition is_format (e : event) : bool :=
  match e with Emit (ev_format _) => true | _ => false end.
Definition is_error (e : event) : bool :=
  match e with Emit (ev_error _) => true | _ => false end.
Definition is_emit (e : event) : bool :=
  match e with Emit _ => true | _ => false end.
Definition is_read_done (e : event) : bool :=
  match e with Done_read _ _ => true | _ => false end.
Definition is_pcm_chunk (e : event) : bool :=
  match e with Done_read _ (read_data _) => true | _ => false end.
Definition is_read_eof (e : event) : bool :=
  match e with Done_read _ read_eof => true | _ => false end.

(** The three ways an error leaves the decoder. *)
Inductive channel :=
| packet_callback    (* done(err) of packetin *)
| error_event        (* this.emit('error', err) *)
| read_callback.     (* done(err) of _read *)

Definition error_channel (e : event) : option channel :=
  match e with
  | Done_packet _ (Some _) => Some packet_callback
  | Emit (ev_error _) => Some error_event
  | Done_read _ (read_failure _) => Some read_callback
  | _ => None
  end.

(** The channels the errors of a trace went through. *)
Fixpoint error_channels (t : list event) : list channel :=
  match t with
  | [] => []
  | e :: r =>
      match error_channel e with
      | Some c => c :: error_channels r
      | None => error_channels r
      end
  end.

(** The fields of the Decode Session State. *)
Definition session {B} (w : World B) : Z * bool * bool * bool * bool :=
  (_headerCount (this w), _blockin (this w), _gotEos (this w),
   vd (this w), vb (this w)).

(** ** The Packet Source

    The ogg stream is not part of this module.  Its side of the protocol:
    it emits the next 'packet' only after [done] was called for the previous
    one, and it emits nothing after the packet marked [e_o_s]. *)

(** Every packet handed over has been completed. *)
Definition idle {B} (w : World B) : bool :=
  Nat.eqb (count is_packet (trace w)) (count is_packet_done (trace w)).

(** A packet marked [e_o_s] has been handed over. *)
Definition eos_sent {B} (w : World B) : bool :=
  existsb is_eos_packet (trace w).

(** A schedule along which every [Packet] finds the source allowed to emit. *)
Fixpoint obeys {B} (may_emit : World B -> bool) (ls : list label) (w : World B)
  : bool :=
  match ls with
  | [] => true
  | l :: r =>
      match l with Packet _ => may_emit w | _ => true end
      && match step B l w with
         | Some w' => obeys may_emit r w'
         | None => true
         end
  end.

(** One submission at a time. *)
Definition serialized {B} := @obeys B idle.


(** ** A scripted binding, to run the decoder on concrete inputs

    Each entry point answers with the next status of its list (0, or an
    exhausted block, once the list is used up). *)
Record script := mkScript {
  s_headerin : list Z;
  s_synthesis_init : Z;
  s_block_init : Z;
  s_synthesis : list Z;
  s_blockin : list Z;
  s_pcmout : list pcm
}.

Definition scripted : Binding :=
  mkBinding script
    (fun _ s => (hd 0 (s_headerin s),
                 mkScript (tl (s_headerin s)) (s_synthesis_init s) (s_block_init s)
                          (s_synthesis s) (s_blockin s) (s_pcmout s)))
    (fun _ => mkComments "Xiph.Org libVorbis" [])
    (fun _ => mkFormat 2 44100)
    (fun s => (s_synthesis_init s, s))
    (fun s => (s_block_init s, s))
    (fun _ s => (hd 0 (s_synthesis s),
                 mkScript (s_headerin s) (s_synthesis_init s) (s_block_init s)
                          (tl (s_synthesis s)) (s_blockin s) (s_pcmout s)))
    (fun s => (hd 0 (s_blockin s),
               mkScript (s_headerin s) (s_synthesis_init s) (s_block_init s)
                        (s_synthesis s) (tl (s_blockin s)) (s_pcmout s)))
    (fun _ s => (hd (Num 0) (s_pcmout s),
                 mkScript (s_headerin s) (s_synthesis_init s) (s_block_init s)
                          (s_synthesis s) (s_blockin s) (tl (s_pcmout s)))).

(** The result of a schedule, with the starting state standing in for a
    schedule that cannot run. *)
Definition outcome {B} (ls : list label) (w : World B) : World B :=
  match run B ls w with
  | Some w' => w'
  | None => w
  end.

Definition pkt (k : Z) : ogg_packet := mkPacket k false [].
Definition last_pkt (k : Z) : ogg_packet := mkPacket k true [].
Definition chunk : pcm := Buf [x01; x02; x03; x04].

(** Three header packets, each parsed before the next is sent. *)
Definition headers : list label :=
  [Packet (pkt 0); Headerin_done 0; Packet (pkt 1); Headerin_done 0;
   Packet (pkt 2); Headerin_done 0].

(** ** Order in a trace *)

Definition is_init_failure (e : event) : bool :=
  match e with Done_packet _ (Some (init_failed _)) => true | _ => false end.

(** Every event that satisfies [Q] has an event that satisfies [P] before
    it ([seen]: one came already). *)
Fixpoint precedesb (P Q : event -> bool) (seen : bool) (t : list event) : bool :=
  match t with
  | [] => true
  | e :: r => (seen || negb (Q e)) && precedesb P Q (seen || P e) r
  end.

(** No event that satisfies [Q] comes after one that satisfies [P]. *)
Fixpoint never_after (P Q : event -> bool) (seen : bool) (t : list event) : bool :=
  match t with
  | [] => true
  | e :: r => negb (seen && Q e) && never_after P Q (seen || P e) r
  end.

(** ** Invariants *)

Definition is_then_nextTick (t : task) : bool :=
  match t with Then_nextTick _ => true | _ => false end.

(** The packets handed over and not yet completed, wherever they wait. *)
Definition inflight {B} (w : World B) : nat :=
  (List.length (headerin_inflight w) + List.length (on_pcmout (this w))
   + List.length (nextTick w)
   + List.length (filter is_then_nextTick (stack w)))%nat.

(** What holds in every state the decoder can reach, whatever its
    environment does. *)
Record Inv {B} (w : World B) : Prop := mkInv {
  inv_stream :
    listening w = match _stream (this w) with Some _ => true | None => false end;
  inv_blockin : _blockin (this w) = true -> _headerCount (this w) <= 0;
  inv_listening : 0 < _headerCount (this w) -> listening w = true;
  inv_headerCount : _headerCount (this w) <= 3;
  inv_comments :
    count is_comments (trace w)
    = if _headerCount (this w) <=? 0 then 1%nat else 0%nat;
  inv_format :
    count is_format (trace w)
    = if _headerCount (this w) <=? 0 then 1%nat else 0%nat;
  inv_audio : 0 < _headerCount (this w) -> count is_audio (trace w) = 0%nat;
  inv_header_ok :
    Z.of_nat (count is_header_ok (trace w)) = 3 - _headerCount (this w);
  inv_failure :
    existsb is_decode_failure (trace w) = negb (listening w);
  inv_conserve :
    (inflight w + count is_packet_done (trace w) <= count is_packet (trace w))%nat;
  inv_comments_seen :
    existsb is_comments (trace w) = (_headerCount (this w) <=? 0);
  inv_format_seen :
    existsb is_format (trace w) = (_headerCount (this w) <=? 0);
  inv_comments_first :
    precedesb is_comments is_format false (trace w) = true;
  inv_chunk_comments :
    precedesb is_comments is_pcm_chunk false (trace w) = true;
  inv_chunk_format :
    precedesb is_format is_pcm_chunk false (trace w) = true;
  inv_init_comments :
    precedesb is_comments is_init_failure false (trace w) = true;
  inv_init_format :
    precedesb is_format is_init_failure false (trace w) = true;
  inv_errors :
    count is_error (trace w) = if listening w then 0%nat else 1%nat;
  inv_submit :
    listening w = true ->
    (count is_block_submit (trace w)
     <= count is_pcmout_zero (trace w)
        + if _blockin (this w) then 1 else 0)%nat
}.

(** What holds in addition when the source hands over one packet at a
    time. *)
Record SInv {B} (w : World B) : Prop := mkSInv {
  s_outstanding :
    (count is_packet (trace w) <= count is_packet_done (trace w) + 1)%nat;
  s_headerCount : 0 <= _headerCount (this w);
  s_inflight :
    (0 < List.length (headerin_inflight w))%nat -> 0 < _headerCount (this w);
  s_detached_blockin : listening w = false -> _blockin (this w) = false;
  s_detached_pcmout :
    listening w = false -> List.length (on_pcmout (this w)) = 0%nat;
  s_detached_inflight :
    listening w = false -> List.length (headerin_inflight w) = 0%nat;
  s_submit :
    (count is_block_submit (trace w)
     <= count is_pcmout_zero (trace w)
        + if _blockin (this w) || negb (listening w) then 1 else 0)%nat;
  s_alive : crashed w = false
}.

(** The source may emit: what [obeys] asks of a label. *)
Definition allowed {B} (may_emit : World B -> bool) (l : label) (w : World B)
  : Prop :=
  match l with
  | Packet _ => may_emit w = true
  | _ => True
  end.

(** ** Deferred packets in a trace *)

Definition is_fired_pcmout (e : event) : bool :=
  match e with Fired_pcmout _ _ => true | _ => false end.

(** The wrapper [id] of packet [p] was registered in [t], and 'pcmout' was
    emitted after that. *)
Definition drained_since (id : nat) (p : ogg_packet) (t : list event) : Prop :=
  exists a b, t = a ++ Once_pcmout id p :: b /\ In (Emit ev_pcmout) b.

(** Whenever a deferred packetin runs again, its wrapper was registered
    with that packet and a 'pcmout' came in between. *)
Definition retry_after_drain (t : list event) : Prop :=
  forall t1 id p t2,
    t = t1 ++ Fired_pcmout id p :: t2 -> drained_since id p t1.

(** The once-wrappers of 'pcmout', in every reachable state. *)
Record Inv2 {B} (w : World B) : Prop := mkInv2 {
  reg_logged : forall id p,
    In (id, p) (on_pcmout (this w)) -> In (Once_pcmout id p) (trace w);
  reg_fresh : forall id p,
    In (id, p) (on_pcmout (this w)) -> (id < fresh w)%nat;
  reg_sent : forall id p,
    In (id, p) (on_pcmout (this w)) -> In (Ev_packet p) (trace w);
  fire_fresh : forall id,
    In (Fire_pcmout id) (stack w) -> (id < fresh w)%nat;
  fire_drained : forall id p,
    In (Fire_pcmout id) (stack w) -> In (id, p) (on_pcmout (this w)) ->
    drained_since id p (trace w);
  retried : retry_after_drain (trace w);
  eos_known : _gotEos (this w) = true -> eos_sent w = true
}.


(** The events a step or a method call added to the trace. *)
Definition events_since {B} (w w' : World B) : list event :=
  skipn (List.length (trace w)) (trace w').

(** ** Concrete runs *)

Definition start (sc : script) : World scripted := init scripted 7 sc.

(** One block: a chunk, then nothing more. *)
Definition play : script := mkScript [] 0 0 [] [] [chunk; Num 0].

(** The engine rejects the first header packet. *)
Definition reject_first : script := mkScript [-132] 0 0 [] [] [].

(** The engine rejects the first audio packet. *)
Definition bad_packet : script := mkScript [] 0 0 [-135] [] [].

(** The first extraction fails, the second finds the block exhausted. *)
Definition bad_extract : script := mkScript [] 0 0 [] [] [Num (-131); Num 0].

(** Synthesis cannot be initialized. *)
Definition bad_init : script := mkScript [] (-129) 0 [] [] [].

(** The end-of-stream packet, read until the terminal result. *)
Definition one_block : list label :=
  headers ++ [Packet (last_pkt 3); Tau; Tick; Read 4096; Read 4096].

(** A second packet arrives while the first block is still being read. *)
Definition backlog : list label :=
  headers ++ [Packet (pkt 3); Tau; Tick; Packet (pkt 4); Read 4096; Read 4096;
              Tau; Tau; Tau; Tick].

(** Four packets, each completed before the next. *)
Definition four_packets : list label :=
  [Packet (pkt 0); Headerin_done 0; Packet (pkt 1); Headerin_done 0;
   Packet (pkt 2); Headerin_done 0; Packet (pkt 3)].

(** Two header packets parsed, the third handed over. *)
Definition third_header : list label :=
  [Packet (pkt 0); Headerin_done 0; Packet (pkt 1); Headerin_done 0;
   Packet (pkt 2)].

(** A packet, a read, a second packet, a second read. *)
Definition read_again : list label :=
  headers ++ [Packet (pkt 3); Tau; Tick; Read 4096; Packet (pkt 4); Read 4096;
              Tau; Tau; Tau; Tick].

(** The first audio packet, and its completion. *)
Definition failed_packet : list label := headers ++ [Packet (pkt 3); Tick].

(** The first audio packet decoded, nothing read yet. *)
Definition before_read : list label := headers ++ [Packet (pkt 3); Tau; Tick].


(** ** More to read in a trace *)

Definition is_read (e : event) : bool :=
  match e with Ev_read _ => true | _ => false end.
Definition is_emit_blockin (e : event) : bool :=
  match e with Emit ev_blockin => true | _ => false end.
Definition is_blockin_ok (e : event) : bool :=
  match e with Call_blockin r => r =? 0 | _ => false end.
(** [vorbis_synthesis] accepted a packet marked [e_o_s] *)
Definition is_eos_decoded (e : event) : bool :=
  match e with Call_synthesis p r => e_o_s p && (r =? 0) | _ => false end.
Definition is_synthesis_init (e : event) : bool :=
  match e with Call_synthesis_init _ => true | _ => false end.
Definition is_synthesis_init_ok (e : event) : bool :=
  match e with Call_synthesis_init r => r =? 0 | _ => false end.
Definition is_block_init (e : event) : bool :=
  match e with Call_block_init _ => true | _ => false end.
Definition is_uncaught (e : event) : bool :=
  match e with Uncaught_TypeError => true | _ => false end.

(** The values [vorbis_synthesis_pcmout] returned that are neither zero nor
    below zero, in the order of the calls. *)
Fixpoint chunks_extracted (t : list event) : list pcm :=
  match t with
  | [] => []
  | Call_pcmout b :: r =>
      if strict_zero b || lt_zero b then chunks_extracted r
      else b :: chunks_extracted r
  | _ :: r => chunks_extracted r
  end.

(** The chunks the consumer was given, in the order of the [done] calls. *)
Fixpoint chunks_delivered (t : list event) : list pcm :=
  match t with
  | [] => []
  | Done_read _ (read_data b) :: r => b :: chunks_delivered r
  | _ :: r => chunks_delivered r
  end.

(** The values below zero [vorbis_synthesis_pcmout] returned. *)
Fixpoint failures_extracted (t : list event) : list pcm :=
  match t with
  | [] => []
  | Call_pcmout b :: r =>
      if lt_zero b then b :: failures_extracted r else failures_extracted r
  | _ :: r => failures_extracted r
  end.

(** The values in the read failures the consumer was given. *)
Fixpoint failures_delivered (t : list event) : list pcm :=
  match t with
  | [] => []
  | Done_read _ (read_failure (vorbis_synthesis_pcmout_failed b)) :: r =>
      b :: failures_delivered r
  | _ :: r => failures_delivered r
  end.

(** An error leaves the decoder on the channel of its kind, and carries a
    status that is a failure. *)
Definition well_reported (e : event) : bool :=
  match e with
  | Done_packet _ (Some (headerin_failed r)) => negb (r =? 0)
  | Done_packet _ (Some (init_failed r)) => negb (r =? 0)
  | Done_packet _ (Some _) => false
  | Emit (ev_error (vorbis_synthesis_failed r)) => negb (r =? 0)
  | Emit (ev_error (vorbis_synthesis_blockin_failed r)) => negb (r =? 0)
  | Emit (ev_error _) => false
  | Done_read _ (read_failure (vorbis_synthesis_pcmout_failed b)) => lt_zero b
  | Done_read _ (read_failure _) => false
  | _ => true
  end.

(** Accounts the decoder keeps in every state it can reach. *)
Record XInv {B} (w : World B) : Prop := mkXInv {
  x_blocks :
    count is_emit_blockin (trace w)
    = (count is_pcmout_zero (trace w)
       + if _blockin (this w) then 1 else 0)%nat;
  x_blockin_ok :
    count is_blockin_ok (trace w) = count is_emit_blockin (trace w);
  x_gotEos : _gotEos (this w) = existsb is_eos_decoded (trace w);
  x_vd : vd (this w) = (_headerCount (this w) <=? 0);
  x_vb : vb (this w) = (_headerCount (this w) <=? 0);
  x_init :
    count is_synthesis_init (trace w)
    = if _headerCount (this w) <=? 0 then 1%nat else 0%nat;
  x_init_seen :
    existsb is_synthesis_init (trace w) = (_headerCount (this w) <=? 0);
  x_block_init :
    count is_block_init (trace w) = count is_synthesis_init_ok (trace w);
  x_init_first :
    precedesb is_synthesis_init is_block_submit false (trace w) = true;
  x_reads :
    count is_read (trace w)
    = (count is_read_done (trace w)
       + List.length (on_blockin (this w)))%nat;
  x_packets :
    crashed w = false ->
    (inflight w + count is_packet_done (trace w))%nat
    = count is_packet (trace w);
  x_failures :
    count is_decode_failure (trace w)
    = if crashed w then 2%nat else if listening w then 0%nat else 1%nat;
  x_uncaught : existsb is_uncaught (trace w) = crashed w;
  x_chunks : chunks_delivered (trace w) = chunks_extracted (trace w);
  x_read_failures :
    failures_delivered (trace w) = failures_extracted (trace w);
  x_reported : forallb well_reported (trace w) = true
}.

(** Who is waiting, and who will wake them: in every state the decoder can
    reach. *)
Record WInv {B} (w : World B) : Prop := mkWInv {
  w_read_fresh : forall id n,
    In (id, n) (on_blockin (this w)) -> (id < fresh w)%nat;
  w_packet_fresh : forall id p,
    In (id, p) (on_pcmout (this w)) -> (id < fresh w)%nat;
  w_read_nodup : NoDup (map fst (on_blockin (this w)));
  w_packet_nodup : NoDup (map fst (on_pcmout (this w)));
  w_read_wake : forall id n,
    In (id, n) (on_blockin (this w)) ->
    _blockin (this w) = false \/ In (Fire_blockin id) (stack w);
  w_packet_wake : crashed w = false -> forall id p,
    In (id, p) (on_pcmout (this w)) ->
    _blockin (this w) = true \/ In (Fire_pcmout id) (stack w)
}.

(** ** Emit cascades, and what else a trace tells *)

(** A bound on the listener calls still to come in the emits in progress:
    the calls on the stack, one round of retries if a block is available,
    and for each deferred packet the reads it can wake and the retries those
    can cause. *)
Definition cascade_bound {B} (w : World B) : nat :=
  (List.length (stack w)
   + (if _blockin (this w) then List.length (on_pcmout (this w)) + 1 else 0)
   + List.length (on_pcmout (this w))
     * (List.length (on_blockin (this w))
        + List.length (on_pcmout (this w)) + 3))%nat.

(** With one packet handed over at a time: no read completes after a decode
    step failed. *)
Record SXInv {B} (w : World B) : Prop := mkSXInv {
  sx_quiet :
    never_after is_decode_failure is_read_done false (trace w) = true
}.
(** The values emitted with 'comments' and with 'format'. *)
Fixpoint comments_emitted (t : list event) : list comment_array_t :=
  match t with
  | [] => []
  | Emit (ev_comments c) :: r => c :: comments_emitted r
  | _ :: r => comments_emitted r
  end.

Fixpoint formats_emitted (t : list event) : list format_t :=
  match t with
  | [] => []
  | Emit (ev_format f) :: r => f :: formats_emitted r
  | _ :: r => formats_emitted r
  end.

(** The properties the decoder copies onto itself from the headers. *)
Record FInv {B} (w : World B) : Prop := mkFInv {
  f_comments_unset : 0 < _headerCount (this w) -> comments (this w) = None;
  f_format_unset : 0 < _headerCount (this w) -> format (this w) = None;
  f_comments :
    comments_emitted (trace w)
    = match comments (this w) with Some c => [c] | None => [] end;
  f_vendor : vendor (this w) = option_map vendor_of (comments (this w));
  f_format :
    formats_emitted (trace w)
    = match format (this w) with Some f => [f] | None => [] end;
  f_format_set : _headerCount (this w) <= 0 -> format (this w) <> None
}.

(** A read before any packet. *)
Definition waiting_read : list label := headers ++ [Read 4096].

(** The engine rejects two audio packets in a row. *)
Definition two_bad_packets : script :=
  mkScript [] 0 0 [0; -135; -135] [] [Num 0].

(** Two more packets handed over before the first was read: both wait for
    the same 'pcmout'. *)
Definition overlapping : list label :=
  headers ++ [Packet (pkt 3); Tau; Tick; Packet (pkt 4); Packet (pkt 5);
              Read 4096; Tau; Tau].

(** A rejected audio packet, then two reads. *)
Definition read_after_failure : list label :=
  failed_packet ++ [Read 4096; Read 4096].

(** The third header packet parsed. *)
Definition all_headers : list label := third_header ++ [Headerin_done 0].

(** ** The Readable base class

    [_read] is private to the stream: the Readable base class calls it
    when the consumer wants data, one call at a time (not while an earlier
    call awaits its [done]), and not again once [done(null, null)] has ended
    the stream.  Like the Packet Source, this is a condition on schedules. *)









(** ** More concrete runs *)




(** The engine rejects the second audio packet only. *)
Definition bad_second : script :=
  mkScript [] 0 0 [0; -135; 0] [] [Num 0; chunk; Num 0].

(** Two packets wait for 'pcmout'; a read finds the block exhausted, and
    the first packet retried is rejected. *)
Definition until_failure : list label :=
  headers ++ [Packet (pkt 3); Tau; Tick; Packet (pkt 4); Packet (pkt 5);
              Read 4096; Tau].

(** What is left to run after that. *)
Definition after_failure : list label := [Tau; Tau; Tau; Tick; Tick].

(** A Buffer with the two bytes of the text [-1]. *)
Definition minus_one : pcm := Buf [x2d; x31].

(** The engine returns a chunk, then that Buffer, then zero. *)
Definition mixed : script := mkScript [] 0 0 [] [] [chunk; minus_one; Num 0].

(** A block read three times. *)
Definition read_thrice : list label :=
  before_read ++ [Read 4096; Read 4096; Read 4096].

(** * Proofs *)

(** ** Lists and traces *)

Lemma count_app f (a b : list event) :
  count f (a ++ b) = (count f a + count f b)%nat.
Proof. unfold count. rewrite filter_app, length_app. reflexivity. Qed.

Lemma take_listener_length {A} id (l : list (nat * A)) x rest :
  take_listener id l = Some (x, rest) ->
  List.length l = S (List.length rest).
Proof.
  revert x rest. induction l as [|[i a] l IH]; simpl; intros x rest H.
  - discriminate.
  - destruct (Nat.eqb i id).
    + inversion H; subst. reflexivity.
    + destruct (take_listener id l) as [[y r']|]; [|discriminate].
      inversion H; subst. simpl. f_equal. eapply IH. reflexivity.
Qed.

Lemma take_nth_length {A} k (l : list A) x rest :
  take_nth k l = Some (x, rest) ->
  List.length l = S (List.length rest).
Proof.
  revert k x rest. induction l as [|a l IH]; intros k x rest H.
  - destruct k; discriminate.
  - destruct k as [|k]; simpl in H.
    + inversion H; subst. reflexivity.
    + destruct (take_nth k l) as [[y r']|] eqn:E; [|discriminate].
      inversion H; subst. simpl. f_equal. eapply IH. exact E.
Qed.

Lemma take_listener_In {A} id (l : list (nat * A)) x rest :
  take_listener id l = Some (x, rest) ->
  In (id, x) l /\ (forall y, In y rest -> In y l).
Proof.
  revert x rest. induction l as [|[i a] l IH]; simpl; intros x rest H.
  - discriminate.
  - destruct (Nat.eqb i id) eqn:E.
    + inversion H; subst. apply Nat.eqb_eq in E. subst. auto.
    + destruct (take_listener id l) as [[y r']|]; [|discriminate].
      inversion H; subst. destruct (IH _ _ eq_refl) as [H1 H2].
      split; [auto|]. intros z [Hz|Hz]; auto.
Qed.

Lemma no_nextTick_in_fires {A} (f : nat -> task) (l : list (nat * A)) :
  (forall i, is_then_nextTick (f i) = false) ->
  filter is_then_nextTick (map (fun x => f (fst x)) l) = [].
Proof.
  intros Hf. induction l as [|x l IH]; simpl; [reflexivity|].
  rewrite Hf. exact IH.
Qed.

Lemma precedesb_app P Q seen (a b : list event) :
  precedesb P Q seen (a ++ b)
  = precedesb P Q seen a && precedesb P Q (seen || existsb P a) b.
Proof.
  revert seen. induction a as [|e a IH]; intros seen; simpl.
  - rewrite orb_false_r. reflexivity.
  - rewrite IH, orb_assoc, andb_assoc. reflexivity.
Qed.

Lemma precedesb_spec P Q (t : list event) :
  precedesb P Q false t = true ->
  forall t1 e t2, t = t1 ++ e :: t2 -> Q e = true -> existsb P t1 = true.
Proof.
  intros H t1 e t2 -> HQ. rewrite precedesb_app in H.
  apply andb_true_iff in H. destruct H as [_ H]. simpl in H.
  rewrite HQ in H. simpl in H. apply andb_true_iff in H. destruct H as [H _].
  rewrite orb_false_r in H. exact H.
Qed.

Lemma never_after_app P Q seen (a b : list event) :
  never_after P Q seen (a ++ b)
  = never_after P Q seen a && never_after P Q (seen || existsb P a) b.
Proof.
  revert seen. induction a as [|e a IH]; intros seen; simpl.
  - rewrite orb_false_r. reflexivity.
  - rewrite IH, orb_assoc, andb_assoc. reflexivity.
Qed.

Lemma never_after_seen P Q (t : list event) :
  never_after P Q true t = true -> forall e, In e t -> Q e = false.
Proof.
  induction t as [|x t IH]; simpl; intros H e He; [contradiction|].
  apply andb_true_iff in H. destruct H as [H1 H2].
  destruct He as [->|He]; [|auto].
  apply negb_true_iff in H1. exact H1.
Qed.

Lemma never_after_spec P Q (t : list event) :
  never_after P Q false t = true ->
  forall t1 e t2, t = t1 ++ e :: t2 -> P e = true ->
  forall e', In e' t2 -> Q e' = false.
Proof.
  intros H t1 e t2 -> HP. rewrite never_after_app in H.
  apply andb_true_iff in H. destruct H as [_ H]. simpl in H.
  apply andb_true_iff in H. destruct H as [_ H].
  rewrite HP, orb_true_r in H. apply (never_after_seen P Q). exact H.
Qed.

Lemma drained_since_app id p t evs :
  drained_since id p t -> drained_since id p (t ++ evs).
Proof.
  intros (a & b & -> & Hb). exists a, (b ++ evs). split.
  - rewrite <- app_assoc. reflexivity.
  - apply in_or_app. auto.
Qed.

Lemma drained_since_emit id p t evs :
  In (Once_pcmout id p) t -> In (Emit ev_pcmout) evs ->
  drained_since id p (t ++ evs).
Proof.
  intros Ht He. apply in_split in Ht. destruct Ht as (a & b & ->).
  exists a, (b ++ evs). split.
  - rewrite <- app_assoc. reflexivity.
  - apply in_or_app. auto.
Qed.

Lemma split_app_event (t evs t1 t2 : list event) e :
  t ++ evs = t1 ++ e :: t2 ->
  (exists r, t = t1 ++ e :: r)
  \/ (exists r, t1 = t ++ r /\ evs = r ++ e :: t2).
Proof.
  revert t1. induction t as [|x t IH]; intros t1 H.
  - right. exists t1. auto.
  - destruct t1 as [|y t1]; simpl in H.
    + inversion H; subst. left. exists t. reflexivity.
    + inversion H; subst. destruct (IH _ H2) as [(r & ->)|(r & -> & ->)].
      * left. exists r. reflexivity.
      * right. exists r. auto.
Qed.

Lemma retry_app t evs :
  retry_after_drain t -> forallb (fun e => negb (is_fired_pcmout e)) evs = true ->
  retry_after_drain (t ++ evs).
Proof.
  intros Ht He t1 id p t2 H.
  destruct (split_app_event _ _ _ _ _ H) as [(r & Hr)|(r & -> & Hr)].
  - eapply Ht. exact Hr.
  - rewrite Hr, forallb_app in He. apply andb_true_iff in He.
    destruct He as [_ He]. simpl in He. discriminate.
Qed.

Lemma retry_app_fired t id p evs :
  retry_after_drain t -> drained_since id p t ->
  forallb (fun e => negb (is_fired_pcmout e)) evs = true ->
  retry_after_drain (t ++ Fired_pcmout id p :: evs).
Proof.
  intros Ht Hd He t1 id' p' t2 H.
  destruct (split_app_event _ _ _ _ _ H) as [(r & Hr)|(r & -> & Hr)].
  - eapply Ht. exact Hr.
  - destruct r as [|x r]; simpl in Hr.
    + inversion Hr; subst. rewrite app_nil_r. exact Hd.
    + inversion Hr; subst. rewrite forallb_app in He.
      apply andb_true_iff in He. destruct He as [_ He]. simpl in He.
      discriminate.
Qed.

Lemma existsb_In (f : event -> bool) e t :
  In e t -> f e = true -> existsb f t = true.
Proof. intros. apply existsb_exists. eauto. Qed.

Lemma events_since_app {B} (w w' : World B) evs :
  trace w' = trace w ++ evs -> events_since w w' = evs.
Proof.
  unfold events_since. intros ->. rewrite skipn_app, Nat.sub_diag, skipn_all.
  reflexivity.
Qed.

Lemma events_since_same {B} (w w' : World B) :
  trace w' = trace w -> events_since w w' = [].
Proof.
  intros H. apply events_since_app. rewrite app_nil_r. exact H.
Qed.

(** ** The cases of a step *)

(** One case for each path through the code of a step. *)
Ltac break_in H :=
  repeat match type of H with
    | context [match ?x with _ => _ end] =>
        lazymatch x with
        | context [match _ with _ => _ end] => fail
        | _ => destruct x eqn:?
        end
    end.

Ltac fields :=
  cbn [this engine listening headerin_inflight stack nextTick fresh trace crashed
       upd_this set_engine set_listening set_inflight set_stack set_nextTick
       set_fresh log throw once_pcmout once_blockin emit_blockin emit_pcmout
       process_nextTick channels
       _stream _headerCount vd vb _blockin _gotEos comments vendor format
       on_pcmout on_blockin set_stream set_headerCount set_vd_vb set_blockin
       set_gotEos set_comments set_format set_on_pcmout set_on_blockin] in *.

Ltac step_cases H :=
  unfold step, run_task, packetin, _read, headerin_callback,
    _synthesis_init, _error in H;
  cbv zeta in H;
  break_in H; try discriminate; inversion H; subst; clear H.

(** Counts and monitors over a trace that grew by known events. *)
Ltac counts_in_all :=
  rewrite ?count_app, ?existsb_app, ?precedesb_app, ?never_after_app in *;
  cbn [count filter List.length app existsb negb orb andb Nat.add
       precedesb never_after is_init_failure
       is_packet is_eos_packet is_packet_done is_call_headerin is_header_ok
       is_block_submit is_pcmout_zero is_decode_failure
       is_audio is_engine_call is_comments is_format is_error is_emit
       is_read_done is_pcm_chunk is_read_eof is_then_nextTick] in *.

Ltac fields_goal :=
  cbn [this engine listening headerin_inflight stack nextTick fresh trace crashed
       upd_this set_engine set_listening set_inflight set_stack set_nextTick
       set_fresh log throw once_pcmout once_blockin emit_blockin emit_pcmout
       process_nextTick channels
       _stream _headerCount vd vb _blockin _gotEos comments vendor format
       on_pcmout on_blockin set_stream set_headerCount set_vd_vb set_blockin
       set_gotEos set_comments set_format set_on_pcmout set_on_blockin].

Ltac counts :=
  rewrite ?count_app, ?existsb_app, ?precedesb_app, ?never_after_app;
  cbn [count filter List.length app existsb negb orb andb Nat.add
       precedesb never_after is_init_failure
       is_packet is_eos_packet is_packet_done is_call_headerin is_header_ok
       is_block_submit is_pcmout_zero is_decode_failure
       is_audio is_engine_call is_comments is_format is_error is_emit
       is_read_done is_pcm_chunk is_read_eof is_then_nextTick].

Lemma quiescent_true {B} (w : World B) :
  quiescent B w = true -> stack w = [] /\ nextTick w = [].
Proof.
  unfold quiescent. destruct (stack w); [|discriminate].
  destruct (nextTick w); [auto|discriminate].
Qed.

Ltac norm_bools :=
  repeat match goal with
    | H : negb _ = true |- _ => apply negb_true_iff in H
    | H : negb _ = false |- _ => apply negb_false_iff in H
    | H : _ && _ = true |- _ => apply andb_true_iff in H; destruct H
    | H : _ || _ = false |- _ => apply orb_false_iff in H; destruct H
    | H : quiescent _ _ = true |- _ =>
        apply quiescent_true in H; destruct H
    end.

Ltac rew_hyps :=
  repeat match goal with
    | H : ?x = true |- _ => progress (rewrite H in * )
    | H : ?x = false |- _ => progress (rewrite H in * )
    | H : ?x = @nil _ |- _ => progress (rewrite H in * )
    | H : ?x = _ :: _ |- _ => progress (rewrite H in * )
    | H : ?x = Some _ |- _ => progress (rewrite H in * )
    | H : ?x = None |- _ => progress (rewrite H in * )
    end.

Ltac rew_goal :=
  repeat match goal with
    | H : ?x = true |- context [?x] => rewrite H
    | H : ?x = false |- context [?x] => rewrite H
    | H : ?x = @nil _ |- context [?x] => rewrite H
    | H : ?x = _ :: _ |- context [?x] => rewrite H
    | H : ?x = Some _ |- context [?x] => rewrite H
    | H : ?x = None |- context [?x] => rewrite H
    | H : existsb ?f ?t = _ |- context [existsb ?f ?t] => rewrite H
    end.

Ltac forward :=
  repeat match goal with
    | H : ?a = ?a -> _ |- _ => specialize (H eq_refl)
    | H : true = false -> _ |- _ => clear H
    | H : false = true -> _ |- _ => clear H
    end.

(** Comparisons on [Z], as propositions next to their boolean form. *)
Ltac bools :=
  repeat match goal with
    | H : (?a <? ?b) = true |- _ =>
        lazymatch goal with
        | _ : a < b |- _ => fail
        | _ => pose proof (proj1 (Z.ltb_lt a b) H)
        end
    | H : (?a <? ?b) = false |- _ =>
        lazymatch goal with
        | _ : b <= a |- _ => fail
        | _ => pose proof (proj1 (Z.ltb_ge a b) H)
        end
    | H : (?a =? ?b) = true |- _ =>
        lazymatch goal with
        | _ : a = b |- _ => fail
        | _ => pose proof (proj1 (Z.eqb_eq a b) H)
        end
    | H : (?a =? ?b) = false |- _ =>
        lazymatch goal with
        | _ : a <> b |- _ => fail
        | _ => pose proof (proj1 (Z.eqb_neq a b) H)
        end
    | H : Nat.eqb ?a ?b = true |- _ =>
        lazymatch goal with
        | _ : a = b |- _ => fail
        | _ => pose proof (proj1 (Nat.eqb_eq a b) H)
        end
    end.

Ltac lens_in_all :=
  repeat match goal with
    | H : take_listener ?i ?l = Some (?x, ?r) |- _ =>
        lazymatch goal with
        | _ : List.length l = S (List.length r) |- _ => fail
        | _ => pose proof (take_listener_length i l x r H)
        end
    | H : take_nth ?i ?l = Some (?x, ?r) |- _ =>
        lazymatch goal with
        | _ : List.length l = S (List.length r) |- _ => fail
        | _ => pose proof (take_nth_length i l x r H)
        end
    end;
  rewrite ?length_app, ?filter_app, ?no_nextTick_in_fires in * by reflexivity;
  cbn [List.length filter is_then_nextTick app] in *.

Ltac lens :=
  rewrite ?length_app, ?filter_app, ?no_nextTick_in_fires by reflexivity;
  cbn [List.length filter is_then_nextTick app].

Ltac leb_cases :=
  repeat match goal with
    | |- context [?a <=? ?b] => destruct (Z.leb_spec a b)
    | H : context [?a <=? ?b] |- _ => destruct (Z.leb_spec a b)
    end.

(** Once for each case of a step: the hypotheses. *)
Ltac prep_case :=
  fields; norm_bools; unfold inflight, idle, eos_sent in *; fields;
  rew_hyps; counts_in_all; rew_hyps;
  rewrite ?orb_false_r, ?orb_true_r, ?andb_true_r, ?Nat.add_0_r in *;
  forward; lens_in_all; bools.

(** For each component of the invariant: the goal. *)
Ltac prep_goal :=
  unfold inflight, idle, eos_sent; fields_goal; counts; rew_goal;
  change (0 =? 0) with true; counts;
  rewrite ?orb_false_r, ?orb_true_r, ?andb_true_r, ?Nat.add_0_r;
  lens; rew_goal.

Ltac chain :=
  repeat match goal with
    | H : ?P -> _, H' : ?P |- _ => specialize (H H')
    end.

Ltac finish :=
  try solve [ assumption | reflexivity | lia | intros; lia
            | intros; discriminate | intros; leb_cases; lia
            | intros; congruence
            | intros; chain; lia
            | intros; match goal with H : _ -> ?G |- ?G => apply H; lia end
            | intros; chain; leb_cases; try lia; reflexivity
            | intros;
              match goal with
              | H : context [listening ?w] |- _ => destruct (listening w) eqn:?
              end;
              cbn [negb orb andb] in *; forward; chain;
              try discriminate; try reflexivity; lia ].

Ltac ins :=
  repeat match goal with
    | H : In _ (_ ++ _) |- _ => apply in_app_or in H; destruct H as [H|H]
    | H : In _ (_ :: _) |- _ =>
        destruct H as [H|H];
        [try discriminate; try (inversion H; subst; clear H)|]
    | H : In _ [] |- _ => destruct H
    | H : In _ (map _ _) |- _ =>
        let x := fresh "x" in
        apply in_map_iff in H; destruct H as (x & H & ?);
        destruct x; cbn [fst snd] in *;
        try discriminate; try (inversion H; subst; clear H)
    end.

Ltac norm_trace :=
  rewrite <- ?app_assoc; cbn [app].

(** The goals of [Inv2]: membership in listener lists, stack and trace. *)
Ltac finish_wrappers :=
  try solve
    [ eauto with datatypes
    | apply in_or_app; left; eauto with datatypes
    | apply in_or_app; right; simpl; tauto
    | apply Nat.lt_lt_succ_r; eauto with datatypes
    | apply drained_since_app; eauto with datatypes
    | apply drained_since_emit; [eauto with datatypes | simpl; tauto]
    | apply retry_app; [assumption|reflexivity]
    | apply retry_app_fired;
      [assumption | eauto with datatypes | reflexivity]
    | lia
    | rewrite existsb_app; apply orb_true_iff; left; auto
    | rewrite existsb_app; apply orb_true_iff; left;
      match goal with
      | F : forall id p, In (id, p) _ -> In (Ev_packet p) _,
        H : In (_, ?p) _ |- _ =>
          apply (existsb_In _ (Ev_packet p));
          [eapply F; eauto with datatypes | simpl; assumption]
      end
    | rewrite existsb_app; apply orb_true_iff; right; simpl;
      match goal with H : e_o_s _ = true |- _ => rewrite H end; reflexivity
    | exfalso;
      match goal with
      | F : forall id, In (Fire_pcmout id) _ -> (id < ?n)%nat |- _ =>
          assert (n < n)%nat by (apply F; auto with datatypes); lia
      | H : In (_, _) _,
        F : forall id p, In (id, p) _ -> (_ < _)%nat |- _ =>
          specialize (F _ _ H); lia
      end ].

Ltac refute_bools :=
  repeat match goal with
    | H : ?x = true -> false = true |- _ =>
        assert (x = false)
          by (destruct x; [discriminate (H eq_refl) | reflexivity]);
        clear H
    | H : ?x = true -> true = false |- _ =>
        assert (x = false)
          by (destruct x; [discriminate (H eq_refl) | reflexivity]);
        clear H
    | H : ?x = false -> true = false |- _ =>
        assert (x = true)
          by (destruct x; [reflexivity | discriminate (H eq_refl)]);
        clear H
    end.

Ltac evs :=
  first [ apply events_since_app; fields_goal; norm_trace; rew_goal;
          reflexivity
        | apply events_since_same; fields_goal; reflexivity ].

Ltac evs_in H :=
  first [ erewrite events_since_app in H
            by (fields_goal; norm_trace; reflexivity)
        | erewrite events_since_same in H by (fields_goal; reflexivity) ].

Section Proofs.

Variable B : Binding.
Local Abbreviation World := (World B).

Lemma Inv_step l (w w' : World) :
  Inv w -> step B l w = Some w' -> Inv w'.
Proof.
  intros [] H. step_cases H.
  all: prep_case; constructor; prep_goal; finish.
Qed.

Lemma Inv_init s e : Inv (init B s e).
Proof. constructor; cbn; try reflexivity; try lia; discriminate. Qed.

Lemma Inv_run ls : forall (w w' : World),
  Inv w -> run B ls w = Some w' -> Inv w'.
Proof.
  induction ls as [|l ls IH]; simpl; intros w w' Hw H.
  - inversion H; subst. exact Hw.
  - destruct (step B l w) as [w1|] eqn:E; [|discriminate].
    eapply IH; [|exact H]. eapply Inv_step; eauto.
Qed.

Lemma SInv_step l (w w' : World) :
  Inv w -> SInv w -> allowed idle l w -> step B l w = Some w' -> SInv w'.
Proof.
  intros [] [] Hl H. unfold allowed in Hl. step_cases H.
  all: prep_case; constructor; prep_goal; finish.
Qed.

Lemma SInv_init s e : SInv (init B s e).
Proof. constructor; cbn; try reflexivity; try lia; discriminate. Qed.

Lemma obeys_cons (may : World -> bool) l ls (w w1 : World) :
  obeys may (l :: ls) w = true -> step B l w = Some w1 ->
  allowed may l w /\ obeys may ls w1 = true.
Proof.
  simpl. intros H E. rewrite E in H. apply andb_true_iff in H.
  destruct H as [H1 H2]. split; [|exact H2].
  destruct l; simpl; auto.
Qed.

Lemma SInv_run ls : forall (w w' : World),
  Inv w -> SInv w -> serialized ls w = true -> run B ls w = Some w' ->
  SInv w'.
Proof.
  induction ls as [|l ls IH]; simpl; intros w w' Hw Hs Ho H.
  - inversion H; subst. exact Hs.
  - destruct (step B l w) as [w1|] eqn:E; [|discriminate].
    destruct (obeys_cons idle l ls w w1 Ho E) as [Ha Ho'].
    eapply IH; [| |exact Ho'|exact H].
    + eapply Inv_step; eauto.
    + eapply SInv_step; eauto.
Qed.


Lemma Inv2_step l (w w' : World) :
  Inv2 w -> step B l w = Some w' -> Inv2 w'.
Proof.
  intros [] H. step_cases H.
  all: fields; norm_bools; unfold eos_sent in *; fields; rew_hyps.
  all: repeat match goal with
    | H : take_listener _ _ = Some _ |- _ =>
        apply take_listener_In in H; destruct H
    end.
  all: constructor; unfold eos_sent; fields_goal; norm_trace; intros;
    rew_hyps; ins.
  all: finish_wrappers.
Qed.

Lemma Inv2_init s e : Inv2 (init B s e).
Proof.
  constructor; cbn; try contradiction; try discriminate.
  intros t1 id p t2 H. destruct t1; discriminate.
Qed.


Lemma Inv2_run ls : forall (w w' : World),
  Inv2 w -> run B ls w = Some w' -> Inv2 w'.
Proof.
  induction ls as [|l ls IH]; simpl; intros w w' Hw H.
  - inversion H; subst. exact Hw.
  - destruct (step B l w) as [w1|] eqn:E; [|discriminate].
    eapply IH; [|exact H]. eapply Inv2_step; eauto.
Qed.


(** A step lowers the header counter by one at most. *)
Lemma headerCount_step l (w w' : World) :
  step B l w = Some w' ->
  _headerCount (this w') = _headerCount (this w)
  \/ _headerCount (this w') = _headerCount (this w) - 1.
Proof.
  intros H. step_cases H. all: fields_goal; auto.
Qed.

(** Once the decoder is detached nothing moves any more. *)
Lemma detached_step l (w w' : World) :
  Inv w -> SInv w -> listening w = false -> step B l w = Some w' ->
  session w' = session w /\ engine w' = engine w /\ listening w' = false
  /\ count is_error (trace w') = count is_error (trace w)
  /\ count is_engine_call (trace w') = count is_engine_call (trace w)
  /\ allowed idle l w.
Proof.
  intros HI [] Hd H.
  step_cases H.
  all: prep_case; forward; unfold session, allowed; prep_goal.
  all: try solve [repeat split; finish].
Qed.

Lemma detached_run ls : forall (w w' : World),
  Inv w -> SInv w -> listening w = false -> run B ls w = Some w' ->
  session w' = session w /\ engine w' = engine w /\ listening w' = false
  /\ count is_error (trace w') = count is_error (trace w)
  /\ count is_engine_call (trace w') = count is_engine_call (trace w).
Proof.
  induction ls as [|l ls IH]; simpl; intros w w' HI HS Hd H.
  - inversion H; subst. auto.
  - destruct (step B l w) as [w1|] eqn:E; [|discriminate].
    destruct (detached_step l w w1 HI HS Hd E)
      as (H1 & H2 & H3 & H4 & H5 & H6).
    destruct (IH w1 w') as (K1 & K2 & K3 & K4 & K5); auto.
    + eapply Inv_step; eauto.
    + eapply SInv_step; eauto.
    + rewrite K1, K2, K4, K5. auto.
Qed.

(** With the header counter at 0 no packet is a header packet any more. *)
Lemma header_done_step l (w w' : World) :
  SInv w -> _headerCount (this w) = 0 -> step B l w = Some w' ->
  _headerCount (this w') = 0
  /\ count is_call_headerin (trace w') = count is_call_headerin (trace w).
Proof.
  intros [] Hd H.
  step_cases H.
  all: prep_case; forward; prep_goal.
  all: try solve [repeat split; finish].
Qed.

Lemma header_done_run ls : forall (w w' : World),
  Inv w -> SInv w -> _headerCount (this w) = 0 ->
  serialized ls w = true -> run B ls w = Some w' ->
  _headerCount (this w') = 0
  /\ count is_call_headerin (trace w') = count is_call_headerin (trace w).
Proof.
  induction ls as [|l ls IH]; simpl; intros w w' HI HS Hd Ho H.
  - inversion H; subst. auto.
  - destruct (step B l w) as [w1|] eqn:E; [|discriminate].
    destruct (obeys_cons idle l ls w w1 Ho E) as [Ha Ho'].
    destruct (header_done_step l w w1 HS Hd E) as [H1 H2].
    destruct (IH w1 w') as [K1 K2]; auto.
    + eapply Inv_step; eauto.
    + eapply SInv_step; eauto.
    + rewrite K2. auto.
Qed.

(** How packetin treats a packet once the headers are done. *)
Lemma audio_packet_step p (w w' : World) :
  _headerCount (this w) <= 0 -> step B (Packet p) w = Some w' ->
  events_since w w' = [Ev_packet p; Once_pcmout (fresh w) p]
  \/ exists r rest,
       events_since w w' = Ev_packet p :: Call_synthesis p r :: rest.
Proof.
  intros Hd H.
  step_cases H.
  all: prep_case; try lia.
  1: left; evs.
  all: right; do 2 eexists; evs.
Qed.

Lemma reach_Inv s e ls (w : World) :
  run B ls (init B s e) = Some w -> Inv w /\ Inv2 w.
Proof.
  intros H. split.
  - eapply Inv_run; [apply Inv_init | exact H].
  - eapply Inv2_run; [apply Inv2_init | exact H].
Qed.

Lemma reach_SInv s e ls (w : World) :
  run B ls (init B s e) = Some w -> serialized ls (init B s e) = true ->
  SInv w.
Proof.
  intros H Ho. eapply SInv_run; [apply Inv_init | apply SInv_init | exact Ho | exact H].
Qed.





(** C2 (as amended): the counter starts at 3 and goes down by one for each
    header packet the engine parsed successfully; while it is above 0 the
    engine is asked for no audio and no PCM chunk is delivered.  When the
    source hands over one packet at a time the counter never goes below 0,
    and once it is 0 it stays 0 and no later packet is handed to
    [vorbis_synthesis_headerin]: each one is deferred or synthesized. *)
Theorem C2_three_header_packets s e ls (w : World) :
  run B ls (init B s e) = Some w ->
  _headerCount (this (init B s e)) = 3
  /\ _headerCount (this w) <= 3
  /\ Z.of_nat (count is_header_ok (trace w)) = 3 - _headerCount (this w)
  /\ (0 < _headerCount (this w) -> count is_audio (trace w) = 0%nat)
  /\ (serialized ls (init B s e) = true ->
      0 <= _headerCount (this w)
      /\ (_headerCount (this w) = 0 ->
          forall ls' w',
            run B ls' w = Some w' -> serialized ls' w = true ->
            _headerCount (this w') = 0
            /\ count is_call_headerin (trace w')
               = count is_call_headerin (trace w)
            /\ forall p w'',
                 step B (Packet p) w' = Some w'' ->
                 events_since w' w'' = [Ev_packet p; Once_pcmout (fresh w') p]
                 \/ exists r rest,
                      events_since w' w''
                      = Ev_packet p :: Call_synthesis p r :: rest)).
Proof.
  intros H.
  destruct (reach_Inv s e ls w H) as [HI HI2].
  split; [reflexivity|]. split; [|split; [|split]].
  - apply (inv_headerCount w HI).
  - apply (inv_header_ok w HI).
  - apply (inv_audio w HI).
  - intros Ho. pose proof (reach_SInv s e ls w H Ho) as HS.
    split; [apply (s_headerCount w HS)|].
    intros Hd ls' w' H' Ho'.
    destruct (header_done_run ls' w w' HI HS Hd Ho' H') as [K1 K2].
    split; [exact K1|]. split; [exact K2|].
    intros p w'' Hp. apply audio_packet_step; [lia | exact Hp].
Qed.

Lemma comments_step l (w w' : World) :
  Inv w -> step B l w = Some w' ->
  count is_comments (trace w') <> count is_comments (trace w)
  \/ count is_format (trace w') <> count is_format (trace w) ->
  _headerCount (this w) = 1 /\ _headerCount (this w') = 0.
Proof.
  intros HI H Hc.
  pose proof (Inv_step l w w' HI H) as HI'.
  pose proof (headerCount_step l w w' H) as Hh.
  rewrite (inv_comments w HI), (inv_comments w' HI'),
    (inv_format w HI), (inv_format w' HI') in Hc.
  destruct (Z.leb_spec (_headerCount (this w)) 0),
    (Z.leb_spec (_headerCount (this w')) 0); try lia;
    destruct Hc; congruence.
Qed.

(** C3: 'comments' and 'format' have each been emitted exactly once as soon
    as the header counter is at 0 and not at all before; 'comments' comes
    before 'format'; a step emits them only if it takes the counter from 1 to
    0; and both come before every PCM chunk handed to the consumer. *)
Theorem C3_comments_then_format s e ls (w : World) :
  run B ls (init B s e) = Some w ->
  count is_comments (trace w)
  = (if _headerCount (this w) <=? 0 then 1%nat else 0%nat)
  /\ count is_format (trace w)
     = (if _headerCount (this w) <=? 0 then 1%nat else 0%nat)
  /\ (forall t1 x t2,
        trace w = t1 ++ x :: t2 -> is_format x = true ->
        existsb is_comments t1 = true)
  /\ (forall l w',
        step B l w = Some w' ->
        count is_comments (trace w') <> count is_comments (trace w)
        \/ count is_format (trace w') <> count is_format (trace w) ->
        _headerCount (this w) = 1 /\ _headerCount (this w') = 0)
  /\ (forall t1 x t2,
        trace w = t1 ++ x :: t2 -> is_pcm_chunk x = true ->
        existsb is_comments t1 = true /\ existsb is_format t1 = true).
Proof.
  intros H. destruct (reach_Inv s e ls w H) as [HI _].
  split; [apply (inv_comments w HI)|].
  split; [apply (inv_format w HI)|].
  split; [apply precedesb_spec, (inv_comments_first w HI)|].
  split; [intros l w'; apply comments_step; exact HI|].
  intros t1 x t2 Ht Hx. split.
  - eapply precedesb_spec; [apply (inv_chunk_comments w HI) | exact Ht | exact Hx].
  - eapply precedesb_spec; [apply (inv_chunk_format w HI) | exact Ht | exact Hx].
Qed.






Lemma _read_negative n (w : World) :
  _blockin (this w) = true ->
  lt_zero
    (fst (vorbis_synthesis_pcmout B (channels (this w)) (engine w))) = true ->
  events_since w (_read B n w)
  = [Call_pcmout (fst (vorbis_synthesis_pcmout B (channels (this w)) (engine w)));
     Done_read n
       (read_failure
          (vorbis_synthesis_pcmout_failed
             (fst (vorbis_synthesis_pcmout B (channels (this w)) (engine w)))))]
  /\ this (_read B n w) = this w
  /\ listening (_read B n w) = listening w
  /\ stack (_read B n w) = stack w
  /\ nextTick (_read B n w) = nextTick w
  /\ crashed (_read B n w) = crashed w
  /\ fresh (_read B n w) = fresh w.
Proof.
  intros Hb Hn. unfold _read. rewrite Hb. cbn [negb].
  destruct (vorbis_synthesis_pcmout B (channels (this w)) (engine w)) as [b e1].
  cbn [fst] in *. cbv zeta.
  assert (strict_zero b = false) as Hz.
  { destruct b as [z|l]; [|reflexivity]. simpl in *.
    apply Z.ltb_lt in Hn. apply Z.eqb_neq. lia. }
  rewrite Hz, Hn. fields_goal.
  split; [evs|]. destruct w as [d ? ? ? ? ? ? ? ?]. destruct d. repeat split.
Qed.

Lemma _read_no_block n (w : World) :
  _blockin (this w) = false ->
  events_since w (_read B n w) = [Once_blockin (fresh w) n]
  /\ on_blockin (this (_read B n w)) = on_blockin (this w) ++ [(fresh w, n)]
  /\ session (_read B n w) = session w
  /\ engine (_read B n w) = engine w.
Proof.
  intros Hb. unfold _read. rewrite Hb. cbn [negb]. unfold session.
  fields_goal. repeat split. evs.
Qed.


(** The 'packet' listener, once removed, is never added again. *)
Lemma listening_step l (w w' : World) :
  listening w = false -> step B l w = Some w' -> listening w' = false.
Proof.
  intros Hl H. step_cases H.
  all: fields; norm_bools; try congruence; fields_goal; auto.
Qed.

Lemma listening_run ls : forall (w w' : World),
  listening w = false -> run B ls w = Some w' -> listening w' = false.
Proof.
  induction ls as [|l ls IH]; simpl; intros w w' Hl H.
  - inversion H; subst. exact Hl.
  - destruct (step B l w) as [w1|] eqn:E; [|discriminate].
    eapply IH; [|exact H]. eapply listening_step; eauto.
Qed.

(** C5 (as amended): when [vorbis_synthesis] or [vorbis_synthesis_blockin]
    has failed on a packet, the decoder has removed its 'packet' listener
    and dropped the stream, exactly one 'error' has been emitted, and from then on no packet
    can enter packetin.  When the source hands over one packet at a time, no
    exception was thrown and whatever happens later changes neither the
    session state nor the engine and adds neither an 'error' nor an engine
    call. *)
Theorem C5_decode_failure_teardown s e ls (w : World) :
  run B ls (init B s e) = Some w ->
  existsb is_decode_failure (trace w) = true ->
  listening w = false /\ _stream (this w) = None
  /\ count is_error (trace w) = 1%nat
  /\ (forall ls' w' p,
        run B ls' w = Some w' -> step B (Packet p) w' = None)
  /\ (serialized ls (init B s e) = true ->
      crashed w = false
      /\ forall ls' w',
           run B ls' w = Some w' ->
           session w' = session w /\ engine w' = engine w
           /\ listening w' = false
           /\ count is_error (trace w') = 1%nat
           /\ count is_engine_call (trace w')
              = count is_engine_call (trace w)).
Proof.
  intros H Hf.
  destruct (reach_Inv s e ls w H) as [HI HI2].
  assert (listening w = false) as Hl.
  { pose proof (inv_failure w HI) as K. rewrite Hf in K.
    destruct (listening w); [discriminate | reflexivity]. }
  assert (count is_error (trace w) = 1%nat) as He.
  { pose proof (inv_errors w HI) as K. rewrite Hl in K. exact K. }
  split; [exact Hl|]. split.
  { pose proof (inv_stream w HI) as K. rewrite Hl in K.
    destruct (_stream (this w)); [discriminate | reflexivity]. }
  split; [exact He|]. split.
  - intros ls' w' p H'. unfold step.
    rewrite (listening_run ls' w w' Hl H'), andb_false_r.
    destruct (crashed w'); reflexivity.
  - intros Ho. pose proof (reach_SInv s e ls w H Ho) as HS.
    split; [apply (s_alive w HS)|].
    intros ls' w' H'.
    destruct (detached_run ls' w w' HI HS Hl H') as (K1 & K2 & K3 & K4 & K5).
    rewrite K4. auto.
Qed.

Lemma headerin_callback_failure p (w : World) r e1 :
  vorbis_synthesis_headerin B p (engine w) = (r, e1) -> r <> 0 ->
  events_since w (headerin_callback B p w)
  = [Ret_headerin p r; Done_packet p (Some (headerin_failed r))]
  /\ this (headerin_callback B p w) = this w
  /\ listening (headerin_callback B p w) = listening w
  /\ stack (headerin_callback B p w) = stack w
  /\ nextTick (headerin_callback B p w) = nextTick w
  /\ crashed (headerin_callback B p w) = crashed w
  /\ headerin_inflight (headerin_callback B p w) = headerin_inflight w.
Proof.
  intros Hh Hr. unfold headerin_callback. rewrite Hh. cbv zeta.
  apply Z.eqb_neq in Hr. rewrite Hr. cbn [negb]. fields_goal.
  split; [evs|]. destruct w as [d ? ? ? ? ? ? ? ?]. destruct d. repeat split.
Qed.

(** C9: when the engine rejects a header packet (the source handing over one
    packet at a time, or the counter being above 0 for any other reason),
    the callback leaves every field of the decoder as it was, the counter
    included, emits nothing, only calls [done] with the error, and stays a
    listener of the stream: the next packet is handed to
    [vorbis_synthesis_headerin] again. *)
Theorem C9_header_failure_atomic s e ls (w w' : World) k p q r e1 :
  run B ls (init B s e) = Some w ->
  serialized ls (init B s e) = true \/ 0 < _headerCount (this w) ->
  take_nth k (headerin_inflight w) = Some (p, q) ->
  vorbis_synthesis_headerin B p (engine w) = (r, e1) ->
  r <> 0 ->
  step B (Headerin_done k) w = Some w' ->
  this w' = this w
  /\ listening w' = true
  /\ events_since w w'
     = [Ret_headerin p r; Done_packet p (Some (headerin_failed r))]
  /\ count is_emit (trace w') = count is_emit (trace w)
  /\ 0 < _headerCount (this w')
  /\ forall p2, exists w'',
       step B (Packet p2) w' = Some w''
       /\ events_since w' w'' = [Ev_packet p2; Call_headerin p2].
Proof.
  intros H Ho Hq Hh Hr Hs.
  destruct (reach_Inv s e ls w H) as [HI _].
  assert (0 < _headerCount (this w)) as Hc.
  { destruct Ho as [Ho|Hc]; [|exact Hc].
    apply (s_inflight w (reach_SInv s e ls w H Ho)).
    rewrite (take_nth_length _ _ _ _ Hq). lia. }
  pose proof (inv_listening w HI Hc) as Hl.
  unfold step in Hs.
  destruct (crashed w) eqn:Ecr; [discriminate|].
  destruct (quiescent B w) eqn:Eq; [|discriminate].
  rewrite Hq in Hs. inversion Hs as [Hw']. clear Hs.
  destruct (headerin_callback_failure p (set_inflight B q w) r e1 Hh Hr)
    as (K1 & K2 & K3 & K4 & K5 & K6 & K7).
  cbn [this listening stack nextTick crashed set_inflight] in *.
  rewrite Hw' in *.
  assert (trace w' = trace w
                     ++ [Ret_headerin p r;
                         Done_packet p (Some (headerin_failed r))]) as Ht.
  { rewrite <- Hw'. unfold headerin_callback. fields_goal. rewrite Hh.
    apply Z.eqb_neq in Hr. rewrite Hr. cbn [negb]. fields_goal. norm_trace.
    reflexivity. }
  split; [exact K2|]. split; [congruence|].
  split; [apply events_since_app; exact Ht|].
  split; [rewrite Ht; counts; lia|].
  split; [rewrite K2; exact Hc|].
  intros p2. eexists. split.
  - unfold step. rewrite K6, Ecr. unfold quiescent in *.
    rewrite K4, K5, Eq, K3, Hl.
    cbn [andb]. unfold packetin. fields_goal. rewrite K2.
    apply Z.ltb_lt in Hc. rewrite Hc. reflexivity.
  - evs.
Qed.

Lemma headerin_callback_init_failure p (w : World) e1 r e2 :
  vorbis_synthesis_headerin B p (engine w) = (0, e1) ->
  _headerCount (this w) = 1 ->
  vorbis_synthesis_init B e1 = (r, e2) -> r <> 0 ->
  events_since w (headerin_callback B p w)
  = [Ret_headerin p 0; Emit (ev_comments (comment_array B e1));
     Emit (ev_format (get_format B e1)); Call_synthesis_init r;
     Done_packet p (Some (init_failed r))].
Proof.
  intros Hh Hc Hi Hr. unfold headerin_callback, _synthesis_init.
  rewrite Hh. cbv zeta. fields_goal. rewrite Hc. cbn [Z.eqb Z.sub negb Z.add Z.opp Z.pos_sub].
  rewrite Hi. apply Z.eqb_neq in Hr. rewrite Hr. cbn [negb]. evs.
Qed.

Lemma headerin_callback_block_init_failure p (w : World) e1 e2 r e3 :
  vorbis_synthesis_headerin B p (engine w) = (0, e1) ->
  _headerCount (this w) = 1 ->
  vorbis_synthesis_init B e1 = (0, e2) ->
  vorbis_block_init B e2 = (r, e3) -> r <> 0 ->
  events_since w (headerin_callback B p w)
  = [Ret_headerin p 0; Emit (ev_comments (comment_array B e1));
     Emit (ev_format (get_format B e1)); Call_synthesis_init 0;
     Call_block_init r; Done_packet p (Some (init_failed r))].
Proof.
  intros Hh Hc Hi Hb Hr. unfold headerin_callback, _synthesis_init.
  rewrite Hh. cbv zeta. fields_goal. rewrite Hc. cbn [Z.eqb Z.sub negb Z.add Z.opp Z.pos_sub].
  rewrite Hi. cbn [Z.eqb negb]. fields_goal. rewrite Hb.
  apply Z.eqb_neq in Hr. rewrite Hr. cbn [negb]. evs.
Qed.

(** C10: an initialization error is handed to [done] only after 'comments'
    and 'format' were emitted: when the third header packet parses and
    [vorbis_synthesis_init] or [vorbis_block_init] fails, the callback emits
    'comments', then 'format', then makes the failing call, then calls
    [done] with the error. *)
Theorem C10_events_before_init_error s e ls (w : World) :
  run B ls (init B s e) = Some w ->
  (forall t1 x t2,
      trace w = t1 ++ x :: t2 -> is_init_failure x = true ->
      existsb is_comments t1 = true /\ existsb is_format t1 = true)
  /\ (forall p e1 r e2,
        vorbis_synthesis_headerin B p (engine w) = (0, e1) ->
        _headerCount (this w) = 1 ->
        vorbis_synthesis_init B e1 = (r, e2) -> r <> 0 ->
        events_since w (headerin_callback B p w)
        = [Ret_headerin p 0; Emit (ev_comments (comment_array B e1));
           Emit (ev_format (get_format B e1)); Call_synthesis_init r;
           Done_packet p (Some (init_failed r))])
  /\ (forall p e1 e2 r e3,
        vorbis_synthesis_headerin B p (engine w) = (0, e1) ->
        _headerCount (this w) = 1 ->
        vorbis_synthesis_init B e1 = (0, e2) ->
        vorbis_block_init B e2 = (r, e3) -> r <> 0 ->
        events_since w (headerin_callback B p w)
        = [Ret_headerin p 0; Emit (ev_comments (comment_array B e1));
           Emit (ev_format (get_format B e1)); Call_synthesis_init 0;
           Call_block_init r; Done_packet p (Some (init_failed r))]).
Proof.
  intros H. destruct (reach_Inv s e ls w H) as [HI _].
  split; [|split].
  - intros t1 x t2 Ht Hx. split.
    + eapply precedesb_spec; [apply (inv_init_comments w HI)|exact Ht|exact Hx].
    + eapply precedesb_spec; [apply (inv_init_format w HI)|exact Ht|exact Hx].
  - intros p e1 r e2. apply headerin_callback_init_failure.
  - intros p e1 e2 r e3. apply headerin_callback_block_init_failure.
Qed.

Lemma packetin_synthesis_failure p (w : World) r e1 :
  _headerCount (this w) <= 0 -> _blockin (this w) = false ->
  _stream (this w) <> None ->
  vorbis_synthesis B p (engine w) = (r, e1) -> r <> 0 ->
  events_since w (packetin B p w)
  = [Call_synthesis p r; Emit (ev_error (vorbis_synthesis_failed r))]
  /\ on_pcmout (this (packetin B p w)) = on_pcmout (this w)
  /\ nextTick (packetin B p w) = nextTick w ++ [p]
  /\ listening (packetin B p w) = false.
Proof.
  intros Hc Hb Hs Hy Hr. unfold packetin, _error.
  apply Z.ltb_ge in Hc. rewrite Hc, Hb, Hy. cbv zeta.
  apply Z.eqb_neq in Hr. rewrite Hr. cbn [negb]. fields_goal.
  destruct (_stream (this w)) eqn:E; [|congruence]. fields_goal.
  repeat split. evs.
Qed.

Lemma packetin_blockin_failure p (w : World) e1 r e2 :
  _headerCount (this w) <= 0 -> _blockin (this w) = false ->
  _stream (this w) <> None ->
  vorbis_synthesis B p (engine w) = (0, e1) ->
  vorbis_synthesis_blockin B e1 = (r, e2) -> r <> 0 ->
  events_since w (packetin B p w)
  = [Call_synthesis p 0; Call_blockin r;
     Emit (ev_error (vorbis_synthesis_blockin_failed r))]
  /\ on_pcmout (this (packetin B p w)) = on_pcmout (this w)
  /\ nextTick (packetin B p w) = nextTick w ++ [p]
  /\ listening (packetin B p w) = false.
Proof.
  intros Hc Hb Hs Hy Hk Hr. unfold packetin, _error.
  apply Z.ltb_ge in Hc. rewrite Hc, Hb, Hy. cbv zeta. cbn [Z.eqb negb].
  apply Z.eqb_neq in Hr.
  destruct (_stream (this w)) eqn:E; [|congruence].
  destruct (e_o_s p); fields_goal; rewrite Hk, Hr; cbn [negb]; fields_goal;
    rewrite E; fields_goal; repeat split; evs.
Qed.

(** C6 (as amended): a failure the engine reports is turned into one
    [Error] naming the failed call and is reported once, on the channel of
    the operation it occurred in: a header-parse failure through the [done]
    callback of packetin; a block-synthesis or block-accumulation failure
    through the 'error' event, as long as the decoder is still attached to
    its stream; an extraction result below zero through the [done] callback
    of [_read]; the failed call is not made again and no retry is
    registered.  When the source hands over one packet at a time the
    decoder is still attached whenever packetin runs, for a packet the
    stream emits or for one that was deferred. *)
Theorem C6_failures_reported_once (w : World) :
  (forall p r e1,
      vorbis_synthesis_headerin B p (engine w) = (r, e1) -> r <> 0 ->
      events_since w (headerin_callback B p w)
      = [Ret_headerin p r; Done_packet p (Some (headerin_failed r))]
      /\ headerin_inflight (headerin_callback B p w) = headerin_inflight w)
  /\ (forall p r e1,
        _headerCount (this w) <= 0 -> _blockin (this w) = false ->
        _stream (this w) <> None ->
        vorbis_synthesis B p (engine w) = (r, e1) -> r <> 0 ->
        events_since w (packetin B p w)
        = [Call_synthesis p r; Emit (ev_error (vorbis_synthesis_failed r))]
        /\ on_pcmout (this (packetin B p w)) = on_pcmout (this w)
        /\ nextTick (packetin B p w) = nextTick w ++ [p])
  /\ (forall p e1 r e2,
        _headerCount (this w) <= 0 -> _blockin (this w) = false ->
        _stream (this w) <> None ->
        vorbis_synthesis B p (engine w) = (0, e1) ->
        vorbis_synthesis_blockin B e1 = (r, e2) -> r <> 0 ->
        events_since w (packetin B p w)
        = [Call_synthesis p 0; Call_blockin r;
           Emit (ev_error (vorbis_synthesis_blockin_failed r))]
        /\ on_pcmout (this (packetin B p w)) = on_pcmout (this w)
        /\ nextTick (packetin B p w) = nextTick w ++ [p])
  /\ (forall n,
        _blockin (this w) = true ->
        lt_zero
          (fst (vorbis_synthesis_pcmout B (channels (this w)) (engine w)))
        = true ->
        events_since w (_read B n w)
        = [Call_pcmout
             (fst (vorbis_synthesis_pcmout B (channels (this w)) (engine w)));
           Done_read n
             (read_failure
                (vorbis_synthesis_pcmout_failed
                   (fst (vorbis_synthesis_pcmout B (channels (this w))
                           (engine w)))))]
        /\ on_blockin (this (_read B n w)) = on_blockin (this w))
  /\ (forall s e ls,
        run B ls (init B s e) = Some w ->
        serialized ls (init B s e) = true ->
        (forall p w',
            step B (Packet p) w = Some w' -> _stream (this w) <> None)
        /\ (forall id p,
              In (id, p) (on_pcmout (this w)) -> _stream (this w) <> None)).
Proof.
  split; [|split; [|split; [|split]]].
  - intros p r e1 Hh Hr.
    destruct (headerin_callback_failure p w r e1 Hh Hr)
      as (K1 & K2 & K3 & K4 & K5 & K6 & K7). auto.
  - intros p r e1 Hc Hb Hs Hy Hr.
    destruct (packetin_synthesis_failure p w r e1 Hc Hb Hs Hy Hr)
      as (K1 & K2 & K3 & K4). auto.
  - intros p e1 r e2 Hc Hb Hs Hy Hk Hr.
    destruct (packetin_blockin_failure p w e1 r e2 Hc Hb Hs Hy Hk Hr)
      as (K1 & K2 & K3 & K4). auto.
  - intros n Hb Hn.
    destruct (_read_negative n w Hb Hn) as (K1 & K2 & _).
    rewrite K2. auto.
  - intros s e ls H Ho.
    destruct (reach_Inv s e ls w H) as [HI _].
    pose proof (reach_SInv s e ls w H Ho) as HS.
    pose proof (inv_stream w HI) as K.
    assert (listening w = true -> _stream (this w) <> None) as G.
    { intros El Hn. rewrite El, Hn in K. discriminate. }
    split.
    + intros p w' Hs. apply G. unfold step in Hs.
      destruct (crashed w); [discriminate|].
      destruct (quiescent B w && listening w) eqn:E; [|discriminate].
      apply andb_true_iff in E. tauto.
    + intros id p Hi. apply G.
      destruct (listening w) eqn:El; [reflexivity|].
      pose proof (s_detached_pcmout w HS El) as Kl.
      destruct (on_pcmout (this w)); [destruct Hi | discriminate].
Qed.

(** C7 (as amended): when [vorbis_synthesis_pcmout] returns a negative
    status, [_read] calls [done] with the error and changes nothing else:
    the decoder stays a listener of the stream and [_blockin] stays true, so
    the next packet is still taken by packetin and registered for the next
    'pcmout'. *)
Theorem C7_extract_error_keeps_source (w : World) n :
  _blockin (this w) = true ->
  lt_zero (fst (vorbis_synthesis_pcmout B (channels (this w)) (engine w)))
  = true ->
  events_since w (_read B n w)
  = [Call_pcmout
       (fst (vorbis_synthesis_pcmout B (channels (this w)) (engine w)));
     Done_read n
       (read_failure
          (vorbis_synthesis_pcmout_failed
             (fst (vorbis_synthesis_pcmout B (channels (this w))
                     (engine w)))))]
  /\ this (_read B n w) = this w
  /\ listening (_read B n w) = listening w
  /\ (crashed w = false -> quiescent B w = true -> listening w = true ->
      _headerCount (this w) <= 0 ->
      forall p, exists w'',
        step B (Packet p) (_read B n w) = Some w''
        /\ on_pcmout (this w'') = on_pcmout (this w) ++ [(fresh w, p)]).
Proof.
  intros Hb Hn.
  destruct (_read_negative n w Hb Hn) as (K1 & K2 & K3 & K4 & K5 & K6 & K7).
  split; [exact K1|]. split; [exact K2|]. split; [exact K3|].
  intros Hcr Hq Hl Hc p. eexists. split.
  - unfold step. rewrite K6, Hcr. unfold quiescent in *. rewrite K4, K5, Hq, K3, Hl.
    cbn [andb]. unfold packetin. fields_goal. rewrite K2.
    apply Z.ltb_ge in Hc. rewrite Hc, Hb. reflexivity.
  - fields_goal. rewrite K2, K7. reflexivity.
Qed.

End Proofs.

(** ** After the terminal result *)





Section Ends.

Variable B : Binding.
Local Abbreviation World := (World B).










End Ends.

(** ** The theorems on concrete runs *)



(** C2, as stated, fails: the engine rejects the first packet, the next two
    parse, and the 4th packet of the stream is handed to
    [vorbis_synthesis_headerin], not to [vorbis_synthesis]. *)
Lemma C2_counterexample :
  serialized four_packets (start reject_first) = true
  /\ option_map (fun w => (trace w, _headerCount (this w)))
       (run scripted four_packets (start reject_first))
     = Some ([Ev_packet (pkt 0); Call_headerin (pkt 0);
              Ret_headerin (pkt 0) (-132);
              Done_packet (pkt 0) (Some (headerin_failed (-132)));
              Ev_packet (pkt 1); Call_headerin (pkt 1);
              Ret_headerin (pkt 1) 0; Done_packet (pkt 1) None;
              Ev_packet (pkt 2); Call_headerin (pkt 2);
              Ret_headerin (pkt 2) 0; Done_packet (pkt 2) None;
              Ev_packet (pkt 3); Call_headerin (pkt 3)], 1).
Proof. split; vm_compute; reflexivity. Qed.

Lemma C2_witness :
  run scripted backlog (start play) = Some (outcome backlog (start play))
  /\ serialized backlog (start play) = true
  /\ Z.of_nat (count is_header_ok (trace (outcome backlog (start play))))
     = 3 - _headerCount (this (outcome backlog (start play))).
Proof.
  assert (run scripted backlog (start play)
          = Some (outcome backlog (start play))) as H
      by (vm_compute; reflexivity).
  assert (serialized backlog (start play) = true) as Ho
      by (vm_compute; reflexivity).
  split; [exact H|]. split; [exact Ho|].
  exact (proj1 (proj2 (proj2
           (C2_three_header_packets scripted 7 play backlog _ H)))).
Defined.

Lemma C3_witness :
  run scripted one_block (start play) = Some (outcome one_block (start play))
  /\ count is_comments (trace (outcome one_block (start play)))
     = (if _headerCount (this (outcome one_block (start play))) <=? 0
        then 1%nat else 0%nat).
Proof.
  assert (run scripted one_block (start play)
          = Some (outcome one_block (start play))) as H
      by (vm_compute; reflexivity).
  split; [exact H|].
  exact (proj1 (C3_comments_then_format scripted 7 play one_block _ H)).
Defined.



(** C5, as stated, fails: two packets wait for the same 'pcmout' when the
    first of them is rejected.  After the 'error' the second is retried and
    decoded: [_blockin] becomes true, the engine is called three more times
    and the waiting read is given a chunk. *)
Lemma C5_counterexample :
  run scripted until_failure (start bad_second)
  = Some (outcome until_failure (start bad_second))
  /\ existsb is_decode_failure
       (trace (outcome until_failure (start bad_second))) = true
  /\ count is_error (trace (outcome until_failure (start bad_second)))
     = 1%nat
  /\ run scripted after_failure (outcome until_failure (start bad_second))
     = Some (outcome (until_failure ++ after_failure) (start bad_second))
  /\ events_since (outcome until_failure (start bad_second))
       (outcome (until_failure ++ after_failure) (start bad_second))
     = [Fired_pcmout 1 (pkt 5); Call_synthesis (pkt 5) 0; Call_blockin 0;
        Emit ev_blockin; Fired_blockin 2 4096; Call_pcmout chunk;
        Done_read 4096 (read_data chunk); Done_packet (pkt 4) None;
        Done_packet (pkt 5) None]
  /\ session (outcome until_failure (start bad_second))
     = (0, false, false, true, true)
  /\ session (outcome (until_failure ++ after_failure) (start bad_second))
     = (0, true, false, true, true)
  /\ session (outcome (until_failure ++ after_failure) (start bad_second))
     <> session (outcome until_failure (start bad_second)).
Proof.
  repeat match goal with |- _ /\ _ => split end;
    try (vm_compute; reflexivity).
  vm_compute. discriminate.
Qed.

Lemma C5_witness :
  run scripted failed_packet (start bad_packet)
  = Some (outcome failed_packet (start bad_packet))
  /\ existsb is_decode_failure
       (trace (outcome failed_packet (start bad_packet))) = true
  /\ serialized failed_packet (start bad_packet) = true
  /\ run scripted [Read 4096; Read 4096]
       (outcome failed_packet (start bad_packet))
     = Some (outcome read_after_failure (start bad_packet))
  /\ listening (outcome failed_packet (start bad_packet)) = false
  /\ count is_error (trace (outcome failed_packet (start bad_packet)))
     = 1%nat
  /\ session (outcome read_after_failure (start bad_packet))
     = session (outcome failed_packet (start bad_packet))
  /\ engine (outcome read_after_failure (start bad_packet))
     = engine (outcome failed_packet (start bad_packet))
  /\ count is_engine_call
       (trace (outcome read_after_failure (start bad_packet)))
     = count is_engine_call (trace (outcome failed_packet (start bad_packet))).
Proof.
  assert (run scripted failed_packet (start bad_packet)
          = Some (outcome failed_packet (start bad_packet))) as H
      by (vm_compute; reflexivity).
  assert (existsb is_decode_failure
            (trace (outcome failed_packet (start bad_packet))) = true) as Hf
      by (vm_compute; reflexivity).
  assert (serialized failed_packet (start bad_packet) = true) as Ho
      by (vm_compute; reflexivity).
  assert (run scripted [Read 4096; Read 4096]
            (outcome failed_packet (start bad_packet))
          = Some (outcome read_after_failure (start bad_packet))) as H'
      by (vm_compute; reflexivity).
  split; [exact H|]. split; [exact Hf|]. split; [exact Ho|].
  split; [exact H'|].
  pose proof (C5_decode_failure_teardown scripted 7 bad_packet failed_packet
                _ H Hf) as K.
  split; [exact (proj1 K)|].
  split; [exact (proj1 (proj2 (proj2 K)))|].
  pose proof (proj2 (proj2 (proj2 (proj2 (proj2 K))) Ho) _ _ H') as K'.
  split; [exact (proj1 K')|]. split; [exact (proj1 (proj2 K'))|].
  exact (proj2 (proj2 (proj2 (proj2 K')))).
Defined.

(** C6, as stated, fails: there is not one error channel.  A rejected header
    packet is reported through the [done] callback of packetin, a rejected
    audio packet through the 'error' event, a failed extraction through the
    [done] callback of [_read]. *)
Lemma C6_counterexample :
  option_map (fun w => error_channels (trace w))
    (run scripted [Packet (pkt 0); Headerin_done 0] (start reject_first))
  = Some [packet_callback]
  /\ option_map (fun w => error_channels (trace w))
       (run scripted (headers ++ [Packet (pkt 3); Tick]) (start bad_packet))
     = Some [error_event]
  /\ option_map (fun w => error_channels (trace w))
       (run scripted (headers ++ [Packet (pkt 3); Tau; Tick; Read 4096])
          (start bad_extract))
     = Some [read_callback].
Proof. repeat split; vm_compute; reflexivity. Qed.

Lemma C6_witness :
  vorbis_synthesis_headerin scripted (pkt 0) (engine (start reject_first))
  = (-132, mkScript [] 0 0 [] [] [])
  /\ -132 <> 0
  /\ events_since (start reject_first)
       (headerin_callback scripted (pkt 0) (start reject_first))
     = [Ret_headerin (pkt 0) (-132);
        Done_packet (pkt 0) (Some (headerin_failed (-132)))].
Proof.
  assert (vorbis_synthesis_headerin scripted (pkt 0)
            (engine (start reject_first))
          = (-132, mkScript [] 0 0 [] [] [])) as H by reflexivity.
  assert (-132 <> 0) as Hr by lia.
  split; [exact H|]. split; [exact Hr|].
  exact (proj1 (proj1 (C6_failures_reported_once scripted
                         (start reject_first)) (pkt 0) (-132) _ H Hr)).
Defined.

(** C7, as stated, fails: after the extraction that returned -131 the
    decoder still takes the next packet; it waits for 'pcmout' and reaches
    [vorbis_synthesis] once a second read has drained the block. *)
Lemma C7_counterexample :
  serialized read_again (start bad_extract) = true
  /\ option_map (fun w => (skipn 21 (trace w), listening w))
       (run scripted read_again (start bad_extract))
     = Some ([Ev_read 4096; Call_pcmout (Num (-131));
              Done_read 4096
                (read_failure (vorbis_synthesis_pcmout_failed (Num (-131))));
              Ev_packet (pkt 4); Once_pcmout 0 (pkt 4);
              Ev_read 4096; Call_pcmout (Num 0); Once_blockin 1 4096;
              Emit ev_pcmout;
              Fired_pcmout 0 (pkt 4); Call_synthesis (pkt 4) 0;
              Call_blockin 0; Emit ev_blockin;
              Fired_blockin 1 4096; Call_pcmout (Num 0);
              Once_blockin 2 4096; Emit ev_pcmout;
              Done_packet (pkt 4) None], true).
Proof. split; vm_compute; reflexivity. Qed.

Lemma C7_witness :
  _blockin (this (outcome before_read (start bad_extract))) = true
  /\ lt_zero
       (fst (vorbis_synthesis_pcmout scripted
               (channels (this (outcome before_read (start bad_extract))))
               (engine (outcome before_read (start bad_extract))))) = true
  /\ this (_read scripted 4096 (outcome before_read (start bad_extract)))
     = this (outcome before_read (start bad_extract))
  /\ listening (_read scripted 4096 (outcome before_read (start bad_extract)))
     = true.
Proof.
  assert (_blockin (this (outcome before_read (start bad_extract))) = true)
    as Hb by (vm_compute; reflexivity).
  assert (lt_zero
            (fst (vorbis_synthesis_pcmout scripted
                    (channels (this (outcome before_read (start bad_extract))))
                    (engine (outcome before_read (start bad_extract)))))
          = true) as Hn by (vm_compute; reflexivity).
  split; [exact Hb|]. split; [exact Hn|].
  pose proof (C7_extract_error_keeps_source scripted
                (outcome before_read (start bad_extract)) 4096 Hb Hn) as K.
  split; [exact (proj1 (proj2 K))|].
  rewrite (proj1 (proj2 (proj2 K))). vm_compute. reflexivity.
Defined.


Lemma C9_witness :
  run scripted [Packet (pkt 0)] (start reject_first)
  = Some (outcome [Packet (pkt 0)] (start reject_first))
  /\ serialized [Packet (pkt 0)] (start reject_first) = true
  /\ step scripted (Headerin_done 0)
       (outcome [Packet (pkt 0)] (start reject_first))
     = Some (outcome [Packet (pkt 0); Headerin_done 0] (start reject_first))
  /\ this (outcome [Packet (pkt 0); Headerin_done 0] (start reject_first))
     = this (outcome [Packet (pkt 0)] (start reject_first))
  /\ listening (outcome [Packet (pkt 0); Headerin_done 0] (start reject_first))
     = true.
Proof.
  assert (run scripted [Packet (pkt 0)] (start reject_first)
          = Some (outcome [Packet (pkt 0)] (start reject_first))) as H
      by (vm_compute; reflexivity).
  assert (serialized [Packet (pkt 0)] (start reject_first) = true) as Ho
      by (vm_compute; reflexivity).
  assert (step scripted (Headerin_done 0)
            (outcome [Packet (pkt 0)] (start reject_first))
          = Some (outcome [Packet (pkt 0); Headerin_done 0]
                    (start reject_first))) as Hs
      by (vm_compute; reflexivity).
  assert (take_nth 0 (headerin_inflight
                        (outcome [Packet (pkt 0)] (start reject_first)))
          = Some (pkt 0, [])) as Hq by (vm_compute; reflexivity).
  assert (vorbis_synthesis_headerin scripted (pkt 0)
            (engine (outcome [Packet (pkt 0)] (start reject_first)))
          = (-132, mkScript [] 0 0 [] [] [])) as Hh
      by (vm_compute; reflexivity).
  assert (-132 <> 0) as Hr by lia.
  split; [exact H|]. split; [exact Ho|]. split; [exact Hs|].
  pose proof (C9_header_failure_atomic scripted 7 reject_first
                [Packet (pkt 0)] _ _ 0%nat (pkt 0) [] (-132) _ H (or_introl Ho)
                Hq Hh Hr Hs)
    as K.
  split; [exact (proj1 K) | exact (proj1 (proj2 K))].
Defined.

Lemma C10_witness :
  run scripted third_header (start bad_init)
  = Some (outcome third_header (start bad_init))
  /\ events_since (outcome third_header (start bad_init))
       (headerin_callback scripted (pkt 2)
          (outcome third_header (start bad_init)))
     = [Ret_headerin (pkt 2) 0;
        Emit (ev_comments (mkComments "Xiph.Org libVorbis" []));
        Emit (ev_format (mkFormat 2 44100));
        Call_synthesis_init (-129);
        Done_packet (pkt 2) (Some (init_failed (-129)))].
Proof.
  assert (run scripted third_header (start bad_init)
          = Some (outcome third_header (start bad_init))) as H
      by (vm_compute; reflexivity).
  split; [exact H|].
  refine (proj1 (proj2 (C10_events_before_init_error scripted 7 bad_init
                          third_header _ H))
            (pkt 2) (mkScript [] (-129) 0 [] [] []) (-129)
            (mkScript [] (-129) 0 [] [] []) _ _ _ _).
  - vm_compute. reflexivity.
  - vm_compute. reflexivity.
  - vm_compute. reflexivity.
  - lia.
Defined.

(** * More of the decoder *)

(** ** Lists and traces, continued *)

Lemma chunks_extracted_app a b :
  chunks_extracted (a ++ b) = chunks_extracted a ++ chunks_extracted b.
Proof.
  induction a as [|e a IH]; simpl; [reflexivity|].
  destruct e; auto. destruct (strict_zero b0 || lt_zero b0); simpl; congruence.
Qed.

Lemma chunks_delivered_app a b :
  chunks_delivered (a ++ b) = chunks_delivered a ++ chunks_delivered b.
Proof.
  induction a as [|e a IH]; simpl; [reflexivity|].
  destruct e; auto. destruct r; simpl; congruence.
Qed.

Lemma failures_extracted_app a b :
  failures_extracted (a ++ b) = failures_extracted a ++ failures_extracted b.
Proof.
  induction a as [|e a IH]; simpl; [reflexivity|].
  destruct e; auto. destruct (lt_zero b0); simpl; congruence.
Qed.

Lemma failures_delivered_app a b :
  failures_delivered (a ++ b) = failures_delivered a ++ failures_delivered b.
Proof.
  induction a as [|e a IH]; simpl; [reflexivity|].
  destruct e; auto. destruct r; auto. destruct e; simpl; congruence.
Qed.

Lemma lt_zero_not_zero b : lt_zero b = true -> strict_zero b = false.
Proof.
  destruct b as [z|l]; [|reflexivity]. simpl.
  intros H. apply Z.ltb_lt in H. apply Z.eqb_neq. lia.
Qed.

Lemma strict_zero_not_lt b : strict_zero b = true -> lt_zero b = false.
Proof.
  destruct b as [z|]; simpl; [|discriminate].
  intros H. apply Z.eqb_eq in H. apply Z.ltb_ge. lia.
Qed.

Ltac xcounts_in_all :=
  rewrite ?count_app, ?existsb_app, ?precedesb_app, ?forallb_app,
    ?chunks_extracted_app, ?chunks_delivered_app, ?failures_extracted_app,
    ?failures_delivered_app in *;
  cbn [count filter List.length app existsb forallb negb orb andb Nat.add
       precedesb chunks_extracted chunks_delivered failures_extracted
       failures_delivered well_reported
       is_read is_emit_blockin is_blockin_ok is_eos_decoded is_synthesis_init
       is_synthesis_init_ok is_block_init is_uncaught
       is_packet is_packet_done is_block_submit is_pcmout_zero
       is_decode_failure is_read_done is_then_nextTick] in *.

Ltac xcounts :=
  rewrite ?count_app, ?existsb_app, ?precedesb_app, ?forallb_app,
    ?chunks_extracted_app, ?chunks_delivered_app, ?failures_extracted_app,
    ?failures_delivered_app;
  cbn [count filter List.length app existsb forallb negb orb andb Nat.add
       precedesb chunks_extracted chunks_delivered failures_extracted
       failures_delivered well_reported
       is_read is_emit_blockin is_blockin_ok is_eos_decoded is_synthesis_init
       is_synthesis_init_ok is_block_init is_uncaught
       is_packet is_packet_done is_block_submit is_pcmout_zero
       is_decode_failure is_read_done is_then_nextTick].

Ltac zero_facts :=
  repeat match goal with
    | H : lt_zero ?b = true |- _ =>
        lazymatch goal with
        | _ : strict_zero b = false |- _ => fail
        | _ => pose proof (lt_zero_not_zero b H)
        end
    | H : strict_zero ?b = true |- _ =>
        lazymatch goal with
        | _ : lt_zero b = false |- _ => fail
        | _ => pose proof (strict_zero_not_lt b H)
        end
    end.

Ltac xprep_case :=
  fields; norm_bools; zero_facts; unfold inflight in *; fields;
  rew_hyps; xcounts_in_all; rew_hyps;
  rewrite ?orb_false_r, ?orb_true_r, ?andb_true_r, ?andb_false_r,
    ?Nat.add_0_r, ?app_nil_r in *;
  forward; lens_in_all; bools.

Ltac xprep_goal :=
  unfold inflight; fields_goal; xcounts; rew_goal;
  change (0 =? 0) with true; xcounts;
  rewrite ?orb_false_r, ?orb_true_r, ?andb_true_r, ?andb_false_r,
    ?Nat.add_0_r, ?app_nil_r;
  lens; rew_goal.

Lemma take_listener_rest {A} id (l : list (nat * A)) x rest :
  take_listener id l = Some (x, rest) ->
  NoDup (map fst l) ->
  NoDup (map fst rest)
  /\ (forall i y, In (i, y) rest -> In (i, y) l /\ i <> id).
Proof.
  revert x rest. induction l as [|[i a] l IH]; simpl; intros x rest H Hn.
  - discriminate.
  - inversion Hn as [|? ? Hi Hn']; subst.
    destruct (Nat.eqb i id) eqn:E.
    + inversion H; subst. apply Nat.eqb_eq in E. subst. split; [exact Hn'|].
      intros j y Hy. split; [auto|]. intros ->. apply Hi.
      apply (in_map fst _ (id, y)). exact Hy.
    + destruct (take_listener id l) as [[y r']|] eqn:T; [|discriminate].
      inversion H; subst. destruct (IH _ _ eq_refl Hn') as [K1 K2].
      apply Nat.eqb_neq in E. split.
      * simpl. constructor; [|exact K1]. intros Hin. apply Hi.
        apply in_map_iff in Hin. destruct Hin as ([j z] & Hj & Hz).
        simpl in Hj. subst. apply (in_map fst _ (i, z)).
        apply (K2 i z Hz).
      * intros j z [Hz|Hz].
        -- inversion Hz; subst. auto.
        -- destruct (K2 j z Hz). auto.
Qed.

Lemma take_listener_none {A} id (l : list (nat * A)) :
  take_listener id l = None -> forall x, ~ In (id, x) l.
Proof.
  induction l as [|[i a] l IH]; simpl; intros H x Hx; [contradiction|].
  destruct (Nat.eqb i id) eqn:E; [discriminate|].
  destruct (take_listener id l) as [[y r']|]; [discriminate|].
  destruct Hx as [Hx|Hx].
  - inversion Hx; subst. rewrite Nat.eqb_refl in E. discriminate.
  - exact (IH eq_refl x Hx).
Qed.

Lemma NoDup_fresh {A} (l : list (nat * A)) n x :
  NoDup (map fst l) -> (forall i y, In (i, y) l -> (i < n)%nat) ->
  NoDup (map fst (l ++ [(n, x)])).
Proof.
  intros Hn Hf. rewrite map_app. simpl.
  apply NoDup_app; [exact Hn | constructor; [simpl; tauto | constructor] |].
  intros i Hi [<-|[]]. apply in_map_iff in Hi.
  destruct Hi as ([j y] & Hj & Hy). simpl in Hj. subst.
  specialize (Hf _ _ Hy). lia.
Qed.

Lemma In_fires {A} (f : nat -> task) (l : list (nat * A)) id x :
  In (id, x) l -> In (f id) (map (fun y => f (fst y)) l).
Proof. intros H. apply (in_map (fun y => f (fst y)) _ (id, x)). exact H. Qed.

Section More.

Variable B : Binding.
Local Abbreviation World := (World B).

Lemma XInv_step l (w w' : World) :
  Inv w -> XInv w -> step B l w = Some w' -> XInv w'.
Proof.
  intros HI [] H.
  pose proof (inv_stream w HI) as Hst.
  pose proof (inv_blockin w HI) as Hbl.
  clear HI.
  step_cases H.
  all: xprep_case; constructor; xprep_goal;
    rewrite ?orb_false_r, ?andb_true_r;
    try match goal with
      | H : vd _ = _ |- context [vd _] => rewrite H
      | H : vb _ = _ |- context [vb _] => rewrite H
      end;
    finish.
Qed.

Lemma XInv_init s e : XInv (init B s e).
Proof. constructor; cbn; try reflexivity; try lia. Qed.

Lemma XInv_run ls : forall (w w' : World),
  Inv w -> XInv w -> run B ls w = Some w' -> XInv w'.
Proof.
  induction ls as [|l ls IH]; simpl; intros w w' Hw Hx H.
  - inversion H; subst. exact Hx.
  - destruct (step B l w) as [w1|] eqn:E; [|discriminate].
    eapply IH; [| |exact H].
    + eapply Inv_step; eauto.
    + eapply XInv_step; eauto.
Qed.

Lemma reach_XInv s e ls (w : World) :
  run B ls (init B s e) = Some w -> XInv w.
Proof.
  intros H. eapply XInv_run; [apply Inv_init | apply XInv_init | exact H].
Qed.

Ltac take_facts :=
  repeat match goal with
    | H : take_listener ?i ?l = Some (?x, ?r), N : NoDup (map fst ?l) |- _ =>
        lazymatch goal with
        | _ : NoDup (map fst r) |- _ => fail
        | _ => destruct (take_listener_rest i l x r H N)
        end
    | H : take_listener ?i ?l = None |- _ =>
        lazymatch goal with
        | _ : forall x, ~ In (i, x) l |- _ => fail
        | _ => pose proof (take_listener_none i l H)
        end
    end.

Ltac use_rest :=
  repeat match goal with
    | K : forall i y, In (i, y) ?r -> In (i, y) _ /\ i <> _,
      H : In (?i0, ?y0) ?r |- _ =>
        let H1 := fresh in
        let H2 := fresh in
        destruct (K i0 y0 H) as [H1 H2]; clear H
    end.

Ltac wake :=
  match goal with
  | W : forall id n, In (id, n) _ -> _ \/ In (Fire_blockin id) _,
    H : In (?i, ?x) _ |- _ \/ In (Fire_blockin ?i) _ =>
      destruct (W i x H) as [HW|HW]
  | W : forall id p, In (id, p) _ -> _ \/ In (Fire_pcmout id) _,
    H : In (?i, ?x) _ |- _ \/ In (Fire_pcmout ?i) _ =>
      destruct (W i x H) as [HW|HW]
  end;
  [ first [ left; congruence | congruence ]
  | ins; first [ congruence | right; assumption
               | solve [right; auto with datatypes]
               | exfalso;
                 match goal with
                 | N : forall x, ~ In (_, x) _ |- _ => eapply N; eassumption
                 end ] ].

Lemma WInv_step l (w w' : World) :
  WInv w -> step B l w = Some w' -> WInv w'.
Proof.
  intros [] H. step_cases H.
  all: fields; norm_bools; take_facts.
  all: constructor; fields_goal; intros; rew_hyps; forward; ins; use_rest.
  all: try solve
    [ eauto
    | congruence
    | apply Nat.lt_lt_succ_r; eauto
    | lia
    | apply NoDup_fresh; eauto
    | apply NoDup_fresh; [assumption|];
      let i := fresh in let y := fresh in let K := fresh in
      intros i y K; use_rest; eauto
    | left; reflexivity
    | left; assumption
    | right; apply in_or_app; left;
      first [ eapply (In_fires Fire_blockin); eauto
            | eapply (In_fires Fire_pcmout); eauto ]
    | wake ].
Qed.

Lemma WInv_init s e : WInv (init B s e).
Proof.
  constructor; cbn; try contradiction; try constructor; intros; contradiction.
Qed.

Lemma WInv_run ls : forall (w w' : World),
  WInv w -> run B ls w = Some w' -> WInv w'.
Proof.
  induction ls as [|l ls IH]; simpl; intros w w' Hw H.
  - inversion H; subst. exact Hw.
  - destruct (step B l w) as [w1|] eqn:E; [|discriminate].
    eapply IH; [|exact H]. eapply WInv_step; eauto.
Qed.

Lemma reach_WInv s e ls (w : World) :
  run B ls (init B s e) = Some w -> WInv w.
Proof.
  intros H. eapply WInv_run; [apply WInv_init | exact H].
Qed.

End More.

(** ** Lists and traces, once more *)

Lemma existsb_count (f : event -> bool) t :
  existsb f t = negb (Nat.eqb (count f t) 0).
Proof.
  unfold count. induction t as [|x t IH]; simpl; [reflexivity|].
  destruct (f x); simpl; [reflexivity | exact IH].
Qed.

Lemma In_comments_emitted c t :
  In c (comments_emitted t) <-> In (Emit (ev_comments c)) t.
Proof.
  induction t as [|x t IH]; simpl; [tauto|].
  destruct x as [| | | | | | | | |[]| | | | | | |]; simpl; rewrite IH;
    (split; intros K;
     [ first [ right; exact K
             | destruct K as [K|K]; [left; congruence | right; exact K] ]
     | destruct K as [K|K];
       [ first [ discriminate | inversion K; left; reflexivity ]
       | first [ right; exact K | exact K ] ] ]).
Qed.

Lemma In_formats_emitted f t :
  In f (formats_emitted t) <-> In (Emit (ev_format f)) t.
Proof.
  induction t as [|x t IH]; simpl; [tauto|].
  destruct x as [| | | | | | | | |[]| | | | | | |]; simpl; rewrite IH;
    (split; intros K;
     [ first [ right; exact K
             | destruct K as [K|K]; [left; congruence | right; exact K] ]
     | destruct K as [K|K];
       [ first [ discriminate | inversion K; left; reflexivity ]
       | first [ right; exact K | exact K ] ] ]).
Qed.

Lemma comments_emitted_app a b :
  comments_emitted (a ++ b) = comments_emitted a ++ comments_emitted b.
Proof.
  induction a as [|x a IH]; simpl; [reflexivity|].
  destruct x; try exact IH. destruct e; simpl; congruence.
Qed.

Lemma formats_emitted_app a b :
  formats_emitted (a ++ b) = formats_emitted a ++ formats_emitted b.
Proof.
  induction a as [|x a IH]; simpl; [reflexivity|].
  destruct x; try exact IH. destruct e; simpl; congruence.
Qed.

Section Properties.

Variable B : Binding.
Local Abbreviation World := (World B).

(** ** Emit cascades end *)

(** Each listener call of an emit in progress lowers the bound. *)
Lemma cascade_step (w w' : World) :
  step B Tau w = Some w' -> (cascade_bound w' < cascade_bound w)%nat.
Proof.
  intros H. unfold step in H. cbv beta iota in H.
  unfold run_task, packetin, _read, headerin_callback, _synthesis_init,
    _error in H.
  cbv zeta in H.
  break_in H; try discriminate; inversion H; subst; clear H.
  all: unfold cascade_bound; fields; norm_bools; rew_hyps;
    repeat match goal with
      | H : take_listener _ _ = Some _ |- _ =>
          apply take_listener_length in H
      end;
    rewrite ?length_app, ?length_map in *;
    cbn [List.length] in *; rew_hyps;
    repeat match goal with
      | H : List.length ?l = S _ |- _ => rewrite H in *
      end.
  all: try nia.
  destruct (_blockin (this w)); nia.
Qed.

(** ... so an emit cascade cannot be longer than the bound. *)
Lemma cascade_run n : forall (w w' : World),
  run B (repeat Tau n) w = Some w' ->
  (n + cascade_bound w' <= cascade_bound w)%nat.
Proof.
  induction n as [|n IH]; simpl; intros w w' H.
  - inversion H; subst. lia.
  - destruct (step B Tau w) as [w1|] eqn:E; [|discriminate].
    pose proof (cascade_step w w1 E). pose proof (IH w1 w' H). lia.
Qed.

Lemma cascade_ends_within k : forall (w : World),
  (cascade_bound w <= k)%nat ->
  exists n w',
    (n <= cascade_bound w)%nat
    /\ run B (repeat Tau n) w = Some w'
    /\ step B Tau w' = None.
Proof.
  induction k as [|k IH]; intros w Hk.
  - exists 0%nat, w. split; [lia|]. split; [reflexivity|].
    destruct (step B Tau w) as [w1|] eqn:E; [|reflexivity].
    pose proof (cascade_step w w1 E). lia.
  - destruct (step B Tau w) as [w1|] eqn:E.
    + pose proof (cascade_step w w1 E) as Hd.
      destruct (IH w1) as (n & w' & Hn & Hr & Hs); [lia|].
      exists (S n), w'. split; [lia|]. split; [|exact Hs].
      simpl. rewrite E. exact Hr.
    + exists 0%nat, w. split; [lia|]. split; [reflexivity | exact E].
Qed.

(** What [step B Tau w = None] means. *)
Lemma Tau_disabled (w : World) :
  step B Tau w = None <-> crashed w = true \/ stack w = [].
Proof.
  unfold step. destruct (crashed w); [intuition|].
  destruct (stack w); split; intros H; auto; try discriminate.
  destruct H; discriminate.
Qed.

(** X2: every emit cascade ends.  From any state, the listeners that the
    emits in progress still call, and those they wake in turn, are done
    after at most [cascade_bound w] calls: then nothing of the decoder is
    left running (or an exception ended it); and no sequence of listener
    calls is longer than that. *)
Theorem X2_emit_cascade_terminates (w : World) :
  (exists n w',
      (n <= cascade_bound w)%nat
      /\ run B (repeat Tau n) w = Some w'
      /\ (crashed w' = true \/ stack w' = []))
  /\ (forall n w',
        run B (repeat Tau n) w = Some w' -> (n <= cascade_bound w)%nat).
Proof.
  split.
  - destruct (cascade_ends_within (cascade_bound w) w (Nat.le_refl _))
      as (n & w' & Hn & Hr & Hs).
    exists n, w'. split; [exact Hn|]. split; [exact Hr|].
    apply Tau_disabled. exact Hs.
  - intros n w' H. pose proof (cascade_run n w w' H). lia.
Qed.

(** The trace only grows. *)
Lemma trace_step l (w w' : World) :
  step B l w = Some w' -> exists evs, trace w' = trace w ++ evs.
Proof.
  intros H. step_cases H.
  all: fields_goal; norm_trace;
    first [ eexists; reflexivity
          | exists []; rewrite app_nil_r; reflexivity ].
Qed.

Lemma trace_run ls : forall (w w' : World),
  run B ls w = Some w' -> exists evs, trace w' = trace w ++ evs.
Proof.
  induction ls as [|l ls IH]; simpl; intros w w' H.
  - inversion H; subst. exists []. rewrite app_nil_r. reflexivity.
  - destruct (step B l w) as [w1|] eqn:E; [|discriminate].
    destruct (trace_step l w w1 E) as [e1 H1].
    destruct (IH w1 w' H) as [e2 H2].
    exists (e1 ++ e2). rewrite H2, H1, app_assoc. reflexivity.
Qed.

Lemma SXInv_step l (w w' : World) :
  Inv w -> SInv w -> SXInv w -> step B l w = Some w' -> SXInv w'.
Proof.
  intros HI HS [] H.
  pose proof (inv_failure w HI) as Hf.
  pose proof (s_detached_blockin w HS) as Hd.
  clear HI HS.
  step_cases H.
  all: prep_case; refute_bools; rew_hyps; constructor; prep_goal; finish.
Qed.

Lemma SXInv_init s e : SXInv (init B s e).
Proof. constructor; reflexivity. Qed.

Lemma SXInv_run ls : forall (w w' : World),
  Inv w -> SInv w -> SXInv w -> serialized ls w = true ->
  run B ls w = Some w' -> SXInv w'.
Proof.
  induction ls as [|l ls IH]; simpl; intros w w' Hw Hs Hx Ho H.
  - inversion H; subst. exact Hx.
  - destruct (step B l w) as [w1|] eqn:E; [|discriminate].
    destruct (obeys_cons B idle l ls w w1 Ho E) as [Ha Ho'].
    eapply IH; [| | |exact Ho'|exact H].
    + eapply Inv_step; eauto.
    + eapply SInv_step; eauto.
    + eapply SXInv_step; eauto.
Qed.

Lemma FInv_step l (w w' : World) :
  Inv w -> FInv w -> step B l w = Some w' -> FInv w'.
Proof.
  intros HI [] H.
  pose proof (inv_blockin w HI) as Hbl.
  clear HI.
  step_cases H.
  all: fields; norm_bools; rew_hyps;
    rewrite ?comments_emitted_app, ?formats_emitted_app, ?app_nil_r in *;
    cbn [comments_emitted formats_emitted app] in *;
    forward; bools.
  all: constructor; fields_goal;
    rewrite ?comments_emitted_app, ?formats_emitted_app, ?app_nil_r;
    cbn [comments_emitted formats_emitted app option_map];
    rew_goal;
    try solve [ assumption | reflexivity | intros; lia | intros; discriminate
              | intros; congruence
              | intros; match goal with H : _ -> ?G |- ?G => apply H; lia end
              | match goal with
                | H : 0 < _ -> ?x = None |- context [?x] => rewrite H by lia
                end;
                first [reflexivity | assumption] ].
  all: match goal with
       | H : comments_emitted _ = _ |- context [comments_emitted _] =>
           rewrite H, f_comments_unset0 by lia; reflexivity
       | H : formats_emitted _ = _ |- context [formats_emitted _] =>
           rewrite H, f_format_unset0 by lia; reflexivity
       end.
Qed.

Lemma FInv_init s e : FInv (init B s e).
Proof. constructor; cbn; try reflexivity; intros; lia. Qed.

Lemma FInv_run ls : forall (w w' : World),
  Inv w -> FInv w -> run B ls w = Some w' -> FInv w'.
Proof.
  induction ls as [|l ls IH]; simpl; intros w w' Hw Hx H.
  - inversion H; subst. exact Hx.
  - destruct (step B l w) as [w1|] eqn:E; [|discriminate].
    eapply IH; [| |exact H].
    + eapply Inv_step; eauto.
    + eapply FInv_step; eauto.
Qed.
(** ** What the decoder keeps, whatever its environment does *)

(** X1: no wake-up is lost.  Whenever no emit is in progress, a read that
    waits for 'blockin' waits because no block is available, and (unless an
    exception was thrown) a packet that waits for 'pcmout' waits because a
    block is still to be read; so a read and a packet never wait for each
    other. *)
Theorem X1_no_lost_wakeup s e ls (w : World) :
  run B ls (init B s e) = Some w ->
  stack w = [] ->
  (on_blockin (this w) <> [] -> _blockin (this w) = false)
  /\ (crashed w = false ->
      on_pcmout (this w) <> [] -> _blockin (this w) = true)
  /\ (crashed w = false ->
      on_blockin (this w) = [] \/ on_pcmout (this w) = []).
Proof.
  intros H Hs. pose proof (reach_WInv B s e ls w H) as HW.
  assert (on_blockin (this w) <> [] -> _blockin (this w) = false) as K1.
  { intros Hn. destruct (on_blockin (this w)) as [|[id n] r] eqn:E;
      [congruence|].
    destruct (w_read_wake w HW id n) as [K|K];
      [rewrite E; left; reflexivity | exact K |].
    rewrite Hs in K. destruct K. }
  assert (crashed w = false ->
          on_pcmout (this w) <> [] -> _blockin (this w) = true) as K2.
  { intros Hc Hn. destruct (on_pcmout (this w)) as [|[id p] r] eqn:E;
      [congruence|].
    destruct (w_packet_wake w HW Hc id p) as [K|K];
      [rewrite E; left; reflexivity | exact K |].
    rewrite Hs in K. destruct K. }
  split; [exact K1|]. split; [exact K2|].
  intros Hc.
  destruct (on_blockin (this w)) as [|x r]; [left; reflexivity|].
  destruct (on_pcmout (this w)) as [|y r']; [right; reflexivity|].
  assert (false = true) by
    (rewrite <- K1 by discriminate; apply K2; [exact Hc | discriminate]).
  discriminate.
Qed.

(** X3: no packet is lost and none is completed twice.  The [done] calls
    never outnumber the packets handed over; unless an exception was
    thrown, every packet handed to packetin has been completed or waits in
    exactly one place: for its headerin callback, for the next 'pcmout', or
    for the tick of its [done].  When the source hands over one packet at a
    time, at most one packet waits. *)
Theorem X3_packets_accounted s e ls (w : World) :
  run B ls (init B s e) = Some w ->
  (count is_packet_done (trace w) <= count is_packet (trace w))%nat
  /\ (crashed w = false ->
      (inflight w + count is_packet_done (trace w))%nat
      = count is_packet (trace w))
  /\ (serialized ls (init B s e) = true -> (inflight w <= 1)%nat).
Proof.
  intros H.
  destruct (reach_Inv B s e ls w H) as [HI _].
  pose proof (reach_XInv B s e ls w H) as HX.
  split; [pose proof (inv_conserve w HI); lia|].
  split; [exact (x_packets w HX)|].
  intros Ho. pose proof (reach_SInv B s e ls w H Ho) as HS.
  pose proof (x_packets w HX (s_alive w HS)).
  pose proof (s_outstanding w HS). lia.
Qed.

(** X4: every call of [_read] has been answered through its [done]
    callback exactly once, or waits as a listener of 'blockin'; none is
    dropped and none is answered twice. *)
Theorem X4_reads_accounted s e ls (w : World) :
  run B ls (init B s e) = Some w ->
  count is_read (trace w)
  = (count is_read_done (trace w) + List.length (on_blockin (this w)))%nat.
Proof.
  intros H. exact (x_reads w (reach_XInv B s e ls w H)).
Qed.

(** X5: what [vorbis_synthesis_pcmout] returns is passed on unchanged.  The
    consumer is given as data exactly the values that are neither [0] nor
    below zero as JavaScript compares them, in the order the engine
    returned them, each one once; and the read failures it is given carry
    exactly the values below zero (a negative status, or a Buffer whose
    text reads as a negative number), in that order. *)
Theorem X5_pcm_passed_through s e ls (w : World) :
  run B ls (init B s e) = Some w ->
  chunks_delivered (trace w) = chunks_extracted (trace w)
  /\ failures_delivered (trace w) = failures_extracted (trace w).
Proof.
  intros H. pose proof (reach_XInv B s e ls w H) as HX.
  split; [exact (x_chunks w HX) | exact (x_read_failures w HX)].
Qed.

(** X6: 'blockin' is emitted once for each [vorbis_synthesis_blockin] that
    succeeded, and [_blockin] is true exactly while one more block was
    accumulated than extractions found exhausted: a second block is never
    accumulated before the first was read to its end. *)
Theorem X6_one_block_at_a_time s e ls (w : World) :
  run B ls (init B s e) = Some w ->
  count is_emit_blockin (trace w) = count is_blockin_ok (trace w)
  /\ count is_blockin_ok (trace w)
     = (count is_pcmout_zero (trace w)
        + if _blockin (this w) then 1 else 0)%nat.
Proof.
  intros H. pose proof (reach_XInv B s e ls w H) as HX.
  pose proof (x_blocks w HX). pose proof (x_blockin_ok w HX).
  split; lia.
Qed.

(** X7: [_gotEos] is true exactly when [vorbis_synthesis] has accepted a
    packet marked [e_o_s], whether or not [vorbis_synthesis_blockin] then
    succeeded; and once true it stays true. *)
Theorem X7_gotEos_latch s e ls (w : World) :
  run B ls (init B s e) = Some w ->
  (_gotEos (this w) = true
   <-> exists p, e_o_s p = true /\ In (Call_synthesis p 0) (trace w))
  /\ (forall ls' w',
        run B ls' w = Some w' ->
        _gotEos (this w) = true -> _gotEos (this w') = true).
Proof.
  intros H.
  destruct (reach_Inv B s e ls w H) as [HI _].
  pose proof (reach_XInv B s e ls w H) as HX.
  split.
  - rewrite (x_gotEos w HX). split.
    + intros K. apply existsb_exists in K. destruct K as ([] & Hi & Hx);
        try discriminate.
      simpl in Hx. apply andb_true_iff in Hx. destruct Hx as [Hp Hr].
      apply Z.eqb_eq in Hr. subst. eauto.
    + intros (p & Hp & Hi). apply (existsb_In _ _ _ Hi).
      simpl. rewrite Hp. reflexivity.
  - intros ls' w' H' K.
    pose proof (XInv_run B ls' w w' HI HX H') as HX'.
    rewrite (x_gotEos w' HX'). rewrite (x_gotEos w HX) in K.
    destruct (trace_run ls' w w' H') as [evs ->].
    rewrite existsb_app, K. reflexivity.
Qed.

(** X8: [_synthesis_init] runs once, when the header counter reaches zero,
    and never again, also when the counter goes below zero; [vd] and [vb]
    are allocated from then on and null before; [vorbis_block_init] is
    called only after a [vorbis_synthesis_init] that succeeded; and no
    packet is handed to [vorbis_synthesis] before [vorbis_synthesis_init]
    was called. *)
Theorem X8_synthesis_init_once s e ls (w : World) :
  run B ls (init B s e) = Some w ->
  count is_synthesis_init (trace w)
  = (if _headerCount (this w) <=? 0 then 1%nat else 0%nat)
  /\ vd (this w) = (_headerCount (this w) <=? 0)
  /\ vb (this w) = (_headerCount (this w) <=? 0)
  /\ count is_block_init (trace w) = count is_synthesis_init_ok (trace w)
  /\ (forall t1 x t2,
        trace w = t1 ++ x :: t2 -> is_block_submit x = true ->
        existsb is_synthesis_init t1 = true).
Proof.
  intros H. pose proof (reach_XInv B s e ls w H) as HX.
  split; [exact (x_init w HX)|]. split; [exact (x_vd w HX)|].
  split; [exact (x_vb w HX)|]. split; [exact (x_block_init w HX)|].
  apply precedesb_spec. exact (x_init_first w HX).
Qed.
(** A header callback that ends in a failed [_synthesis_init]. *)
Lemma init_failure_step k (w w1 : World) :
  Inv w -> step B (Headerin_done k) w = Some w1 ->
  existsb is_init_failure (events_since w w1) = true ->
  _headerCount (this w1) = 0 /\ listening w1 = true
  /\ _stream (this w1) = _stream (this w)
  /\ _blockin (this w1) = false
  /\ vd (this w1) = true /\ vb (this w1) = true
  /\ stack w1 = [] /\ nextTick w1 = [] /\ crashed w1 = false
  /\ count is_error (trace w1) = 0%nat.
Proof.
  intros HI H Hx.
  pose proof (inv_blockin w HI) as Hbl.
  pose proof (inv_listening w HI) as Hli.
  pose proof (inv_errors w HI) as Her.
  clear HI.
  step_cases H.
  all: evs_in Hx; cbn in Hx; try discriminate.
  all: prep_case.
  all: assert (listening w = true) as Hl by (apply Hli; lia);
    assert (_blockin (this w) = false) as Hb
      by (destruct (_blockin (this w)); [specialize (Hbl eq_refl); lia
                                        | reflexivity]);
    rewrite Hl in Her.
  all: repeat split; fields_goal; counts; auto; lia.
Qed.

(** A packet that arrives after the headers while no block is pending. *)
Lemma synthesized_packet_step p (w w' : World) :
  _headerCount (this w) <= 0 -> _blockin (this w) = false ->
  step B (Packet p) w = Some w' ->
  exists r rest,
    events_since w w' = Ev_packet p :: Call_synthesis p r :: rest.
Proof.
  intros Hd Hb H.
  step_cases H.
  all: prep_case; try lia; try discriminate.
  all: do 2 eexists; evs.
Qed.

(** X9: a failed [_synthesis_init] is not fatal to the decoder.  The
    callback that parsed the third header hands the error to [done] and
    nothing else: the counter is at zero, the decoder is still a listener of
    the stream, no 'error' was emitted, and the next packet the stream
    emits is handed to [vorbis_synthesis]. *)
Theorem X9_init_failure_not_fatal s e ls (w w1 : World) k :
  run B ls (init B s e) = Some w ->
  step B (Headerin_done k) w = Some w1 ->
  existsb is_init_failure (events_since w w1) = true ->
  _headerCount (this w1) = 0
  /\ listening w1 = true
  /\ _stream (this w1) = Some s
  /\ count is_error (trace w1) = 0%nat
  /\ forall p, exists w2 r rest,
       step B (Packet p) w1 = Some w2
       /\ events_since w1 w2 = Ev_packet p :: Call_synthesis p r :: rest.
Proof.
  intros H H1 Hx.
  destruct (reach_Inv B s e ls w H) as [HI _].
  destruct (init_failure_step k w w1 HI H1 Hx)
    as (K1 & K2 & K3 & K4 & K5 & K6 & K7 & K8 & K9 & K10).
  split; [exact K1|]. split; [exact K2|]. split.
  { rewrite K3. clear - H K2 K3 HI H1.
    assert (forall ls (w0 w' : World),
              run B ls w0 = Some w' ->
              _stream (this w') = _stream (this w0)
              \/ _stream (this w') = None) as G.
    { clear. induction ls as [|l ls IH]; simpl; intros w0 w' H.
      - inversion H; subst. left; reflexivity.
      - destruct (step B l w0) as [wm|] eqn:E; [|discriminate].
        assert (_stream (this wm) = _stream (this w0)
                \/ _stream (this wm) = None) as [K|K].
        { clear - E. step_cases E; fields_goal; auto. }
        + rewrite <- K. eapply IH; exact H.
        + destruct (IH wm w' H) as [K'|K']; right; congruence. }
    destruct (G ls (init B s e) w H) as [K|K]; [exact K|].
    pose proof (inv_stream w1 (Inv_step B _ w w1 HI H1)) as Hs.
    rewrite K2, K3, K in Hs. discriminate. }
  split; [exact K10|].
  intros p.
  assert (exists w2, step B (Packet p) w1 = Some w2) as [w2 H2].
  { unfold step, quiescent. rewrite K9, K7, K8, K2. eexists. reflexivity. }
  destruct (synthesized_packet_step p w1 w2) as (r & rest & Hr);
    [lia | exact K4 | exact H2 |].
  exists w2, r, rest. auto.
Qed.

(** X10: no error ever leaves the decoder on another channel than that of
    its kind, and none is made of a status that is not a failure.  Only a
    header or initialization failure reaches the [done] callback of
    packetin, only a synthesis or blockin failure is emitted as 'error',
    only an extraction result below zero, as JavaScript compares it,
    reaches the [done] callback of [_read]. *)
Theorem X10_errors_on_their_channel s e ls (w : World) :
  run B ls (init B s e) = Some w ->
  (forall p err,
      In (Done_packet p (Some err)) (trace w) ->
      exists r, r <> 0 /\ (err = headerin_failed r \/ err = init_failed r))
  /\ (forall err,
        In (Emit (ev_error err)) (trace w) ->
        exists r,
          r <> 0
          /\ (err = vorbis_synthesis_failed r
              \/ err = vorbis_synthesis_blockin_failed r))
  /\ (forall n err,
        In (Done_read n (read_failure err)) (trace w) ->
        exists b,
          lt_zero b = true /\ err = vorbis_synthesis_pcmout_failed b).
Proof.
  intros H. pose proof (x_reported w (reach_XInv B s e ls w H)) as K.
  rewrite forallb_forall in K.
  split; [|split].
  - intros p err Hi. specialize (K _ Hi). destruct err; simpl in K;
      try discriminate; apply negb_true_iff, Z.eqb_neq in K; eauto.
  - intros err Hi. specialize (K _ Hi). destruct err; simpl in K;
      try discriminate; apply negb_true_iff, Z.eqb_neq in K; eauto.
  - intros n err Hi. specialize (K _ Hi). destruct err; simpl in K;
      try discriminate; eauto.
Qed.

(** X11: [_error] throws exactly when it is called a second time.  At most
    two decode steps ever fail; an exception leaves the decoder exactly
    when a second one does, which a packet deferred before the first
    failure can cause; that second failure is not emitted as 'error'. *)
Theorem X11_second_failure_throws s e ls (w : World) :
  run B ls (init B s e) = Some w ->
  (count is_decode_failure (trace w) <= 2)%nat
  /\ (crashed w = true <-> count is_decode_failure (trace w) = 2%nat)
  /\ (crashed w = true <-> In Uncaught_TypeError (trace w))
  /\ (crashed w = true -> count is_error (trace w) = 1%nat).
Proof.
  intros H.
  destruct (reach_Inv B s e ls w H) as [HI _].
  pose proof (reach_XInv B s e ls w H) as HX.
  pose proof (x_failures w HX) as Kf.
  pose proof (x_uncaught w HX) as Ku.
  pose proof (inv_failure w HI) as Ke.
  pose proof (inv_errors w HI) as Kr.
  rewrite existsb_count in Ke.
  split; [destruct (crashed w), (listening w); lia|].
  split; [destruct (crashed w), (listening w); split; intros; try lia;
          try reflexivity; discriminate|].
  split.
  - rewrite <- Ku. rewrite existsb_exists. split.
    + intros ([] & Hi & Hx); try discriminate. exact Hi.
    + intros Hi. eexists. split; [exact Hi | reflexivity].
  - intros Hc. rewrite Hc in Kf. rewrite Kf in Ke. simpl in Ke.
    destruct (listening w); [discriminate | exact Kr].
Qed.

(** X12: when the source hands over one packet at a time, no read is
    answered after a decode step failed: a read that waits then, or comes
    later, gets neither data nor an error nor the terminal result. *)
Theorem X12_reads_hang_after_failure s e ls (w : World) :
  run B ls (init B s e) = Some w ->
  serialized ls (init B s e) = true ->
  forall t1 x t2,
    trace w = t1 ++ x :: t2 -> is_decode_failure x = true ->
    forall y, In y t2 -> is_read_done y = false.
Proof.
  intros H Ho. apply never_after_spec.
  apply (sx_quiet w).
  eapply SXInv_run;
    [apply Inv_init | apply SInv_init | apply SXInv_init | exact Ho
    | exact H].
Qed.

(** X13: [this.comments], [this.vendor] and the keys copied from the format
    are unset until the events 'comments' and 'format', and from then on
    hold the values that were emitted; whenever a block is available the
    format is set, so [_read] never hands an undefined [channels] to
    [vorbis_synthesis_pcmout]. *)
Theorem X13_header_properties s e ls (w : World) :
  run B ls (init B s e) = Some w ->
  (forall c,
      comments (this w) = Some c <-> In (Emit (ev_comments c)) (trace w))
  /\ vendor (this w) = option_map vendor_of (comments (this w))
  /\ (forall f,
        format (this w) = Some f <-> In (Emit (ev_format f)) (trace w))
  /\ (_blockin (this w) = true ->
      exists f,
        In (Emit (ev_format f)) (trace w)
        /\ channels (this w) = Some (format_channels f)).
Proof.
  intros H.
  destruct (reach_Inv B s e ls w H) as [HI _].
  assert (FInv w) as HF
      by (eapply FInv_run; [apply Inv_init | apply FInv_init | exact H]).
  pose proof (f_comments w HF) as Kc.
  pose proof (f_format w HF) as Kf.
  assert (forall f,
            format (this w) = Some f <-> In (Emit (ev_format f)) (trace w))
    as Gf.
  { intros f. rewrite <- In_formats_emitted, Kf.
    destruct (format (this w)); simpl; split; intros K;
      try discriminate; try tauto.
    - inversion K; auto.
    - destruct K as [->|[]]. reflexivity. }
  split; [|split; [exact (f_vendor w HF)|split; [exact Gf|]]].
  - intros c. rewrite <- In_comments_emitted, Kc.
    destruct (comments (this w)); simpl; split; intros K;
      try discriminate; try tauto.
    + inversion K; auto.
    + destruct K as [->|[]]. reflexivity.
  - intros Hb. pose proof (f_format_set w HF (inv_blockin w HI Hb)) as K.
    unfold channels. destruct (format (this w)) as [f|] eqn:E;
      [|congruence].
    exists f. split; [apply Gf; reflexivity | reflexivity].
Qed.
(** A packet decoded into a block, as a step of the stream. *)
Lemma block_step p (w w' : World) :
  step B (Packet p) w = Some w' ->
  existsb is_emit_blockin (events_since w w') = true ->
  _blockin (this w') = true
  /\ on_blockin (this w') = on_blockin (this w)
  /\ stack w'
     = map (fun l => Fire_blockin (fst l)) (on_blockin (this w))
       ++ [Then_nextTick p]
  /\ nextTick w' = []
  /\ crashed w' = false.
Proof.
  intros H Hx.
  step_cases H.
  all: evs_in Hx; cbn in Hx; try discriminate.
  all: fields; norm_bools; rew_hyps; fields_goal; rew_goal; auto.
Qed.

(** X14: a decoded block is offered to the reader at once.  When packetin
    has accumulated a block and emits 'blockin' while reads are waiting,
    the first of them runs next and calls [vorbis_synthesis_pcmout] on that
    block, before the [done] of the packet is scheduled, and no other packet
    or read can come in between. *)
Theorem X14_block_wakes_reader (w w' : World) p id n r :
  step B (Packet p) w = Some w' ->
  existsb is_emit_blockin (events_since w w') = true ->
  on_blockin (this w) = (id, n) :: r ->
  (forall q, step B (Packet q) w' = None)
  /\ (forall m, step B (Read m) w' = None)
  /\ step B Tick w' = None
  /\ exists w'' rest,
       step B Tau w' = Some w''
       /\ events_since w' w''
          = Fired_blockin id n
            :: Call_pcmout
                 (fst (vorbis_synthesis_pcmout B (channels (this w'))
                         (engine w')))
            :: rest
       /\ In (Then_nextTick p) (stack w'')
       /\ nextTick w'' = [].
Proof.
  intros H Hx Hr.
  destruct (block_step p w w' H Hx) as (K1 & K2 & K3 & K4 & K5).
  rewrite Hr in K2, K3. cbn [map fst app] in K3.
  split; [|split; [|split]].
  - intros q. unfold step, quiescent. rewrite K5, K3. reflexivity.
  - intros m. unfold step, quiescent. rewrite K5, K3. reflexivity.
  - unfold step. rewrite K5, K3. reflexivity.
  - unfold step. rewrite K5, K3. unfold run_task. fields_goal.
    rewrite K2. cbn [take_listener]. rewrite Nat.eqb_refl.
    unfold _read, channels. fields_goal. rewrite K1. cbn [negb].
    destruct (vorbis_synthesis_pcmout B
                (option_map format_channels (format (this w'))) (engine w'))
      as [b e1].
    cbn [fst]. cbv zeta.
    destruct (strict_zero b); [destruct (_gotEos _) | destruct (lt_zero b)];
      do 2 eexists; (split; [reflexivity|]);
      (split; [evs|]); fields_goal; rewrite ?K4;
      (split; [auto with datatypes | reflexivity]).
Qed.
End Properties.

(** ** The properties on concrete runs *)

Lemma X1_witness :
  run scripted waiting_read (start play)
  = Some (outcome waiting_read (start play))
  /\ stack (outcome waiting_read (start play)) = []
  /\ on_blockin (this (outcome waiting_read (start play))) <> []
  /\ _blockin (this (outcome waiting_read (start play))) = false.
Proof.
  assert (run scripted waiting_read (start play)
          = Some (outcome waiting_read (start play))) as H
      by (vm_compute; reflexivity).
  assert (stack (outcome waiting_read (start play)) = []) as Hs
      by (vm_compute; reflexivity).
  assert (on_blockin (this (outcome waiting_read (start play))) <> [])
    as Hn by (vm_compute; discriminate).
  split; [exact H|]. split; [exact Hs|]. split; [exact Hn|].
  exact (proj1 (X1_no_lost_wakeup scripted 7 play waiting_read _ H Hs) Hn).
Defined.

Lemma X3_witness :
  run scripted backlog (start play) = Some (outcome backlog (start play))
  /\ serialized backlog (start play) = true
  /\ (inflight (outcome backlog (start play)) <= 1)%nat.
Proof.
  assert (run scripted backlog (start play)
          = Some (outcome backlog (start play))) as H
      by (vm_compute; reflexivity).
  assert (serialized backlog (start play) = true) as Ho
      by (vm_compute; reflexivity).
  split; [exact H|]. split; [exact Ho|].
  exact (proj2 (proj2 (X3_packets_accounted scripted 7 play backlog _ H)) Ho).
Defined.

Lemma X4_witness :
  run scripted read_again (start play)
  = Some (outcome read_again (start play))
  /\ count is_read (trace (outcome read_again (start play)))
     = (count is_read_done (trace (outcome read_again (start play)))
        + List.length (on_blockin (this (outcome read_again (start play)))))%nat.
Proof.
  assert (run scripted read_again (start play)
          = Some (outcome read_again (start play))) as H
      by (vm_compute; reflexivity).
  split; [exact H|].
  exact (X4_reads_accounted scripted 7 play read_again _ H).
Defined.

Lemma X5_witness :
  run scripted read_thrice (start mixed)
  = Some (outcome read_thrice (start mixed))
  /\ chunks_delivered (trace (outcome read_thrice (start mixed)))
     = chunks_extracted (trace (outcome read_thrice (start mixed)))
  /\ failures_delivered (trace (outcome read_thrice (start mixed)))
     = failures_extracted (trace (outcome read_thrice (start mixed))).
Proof.
  assert (run scripted read_thrice (start mixed)
          = Some (outcome read_thrice (start mixed))) as H
      by (vm_compute; reflexivity).
  split; [exact H|].
  exact (X5_pcm_passed_through scripted 7 mixed read_thrice _ H).
Defined.

Lemma X6_witness :
  run scripted before_read (start play)
  = Some (outcome before_read (start play))
  /\ count is_emit_blockin (trace (outcome before_read (start play)))
     = count is_blockin_ok (trace (outcome before_read (start play))).
Proof.
  assert (run scripted before_read (start play)
          = Some (outcome before_read (start play))) as H
      by (vm_compute; reflexivity).
  split; [exact H|].
  exact (proj1 (X6_one_block_at_a_time scripted 7 play before_read _ H)).
Defined.

Lemma X7_witness :
  run scripted one_block (start play)
  = Some (outcome one_block (start play))
  /\ (_gotEos (this (outcome one_block (start play))) = true
      <-> exists p,
            e_o_s p = true
            /\ In (Call_synthesis p 0)
                 (trace (outcome one_block (start play)))).
Proof.
  assert (run scripted one_block (start play)
          = Some (outcome one_block (start play))) as H
      by (vm_compute; reflexivity).
  split; [exact H|].
  exact (proj1 (X7_gotEos_latch scripted 7 play one_block _ H)).
Defined.

Lemma X8_witness :
  run scripted backlog (start play) = Some (outcome backlog (start play))
  /\ count is_block_init (trace (outcome backlog (start play)))
     = count is_synthesis_init_ok (trace (outcome backlog (start play))).
Proof.
  assert (run scripted backlog (start play)
          = Some (outcome backlog (start play))) as H
      by (vm_compute; reflexivity).
  split; [exact H|].
  exact (proj1 (proj2 (proj2 (proj2
           (X8_synthesis_init_once scripted 7 play backlog _ H))))).
Defined.

Lemma X9_witness :
  run scripted third_header (start bad_init)
  = Some (outcome third_header (start bad_init))
  /\ step scripted (Headerin_done 0) (outcome third_header (start bad_init))
     = Some (outcome all_headers (start bad_init))
  /\ existsb is_init_failure
       (events_since (outcome third_header (start bad_init))
          (outcome all_headers (start bad_init))) = true
  /\ listening (outcome all_headers (start bad_init)) = true.
Proof.
  assert (run scripted third_header (start bad_init)
          = Some (outcome third_header (start bad_init))) as H
      by (vm_compute; reflexivity).
  assert (step scripted (Headerin_done 0)
            (outcome third_header (start bad_init))
          = Some (outcome all_headers (start bad_init))) as H1
      by (vm_compute; reflexivity).
  assert (existsb is_init_failure
            (events_since (outcome third_header (start bad_init))
               (outcome all_headers (start bad_init))) = true) as Hx
      by (vm_compute; reflexivity).
  split; [exact H|]. split; [exact H1|]. split; [exact Hx|].
  exact (proj1 (proj2
           (X9_init_failure_not_fatal scripted 7 bad_init third_header
              _ _ 0%nat H H1 Hx))).
Defined.

Lemma X10_witness :
  run scripted read_thrice (start mixed)
  = Some (outcome read_thrice (start mixed))
  /\ In (Done_read 4096
           (read_failure (vorbis_synthesis_pcmout_failed minus_one)))
        (trace (outcome read_thrice (start mixed)))
  /\ exists b,
       lt_zero b = true
       /\ vorbis_synthesis_pcmout_failed minus_one
          = vorbis_synthesis_pcmout_failed b.
Proof.
  assert (run scripted read_thrice (start mixed)
          = Some (outcome read_thrice (start mixed))) as H
      by (vm_compute; reflexivity).
  assert (In (Done_read 4096
                (read_failure (vorbis_synthesis_pcmout_failed minus_one)))
             (trace (outcome read_thrice (start mixed)))) as Hi
      by (vm_compute; repeat (first [left; reflexivity | right])).
  split; [exact H|]. split; [exact Hi|].
  exact (proj2 (proj2
           (X10_errors_on_their_channel scripted 7 mixed read_thrice _ H))
           4096 _ Hi).
Defined.

Lemma X11_witness :
  run scripted overlapping (start two_bad_packets)
  = Some (outcome overlapping (start two_bad_packets))
  /\ crashed (outcome overlapping (start two_bad_packets)) = true
  /\ count is_error (trace (outcome overlapping (start two_bad_packets)))
     = 1%nat.
Proof.
  assert (run scripted overlapping (start two_bad_packets)
          = Some (outcome overlapping (start two_bad_packets))) as H
      by (vm_compute; reflexivity).
  assert (crashed (outcome overlapping (start two_bad_packets)) = true)
    as Hc by (vm_compute; reflexivity).
  split; [exact H|]. split; [exact Hc|].
  exact (proj2 (proj2 (proj2
           (X11_second_failure_throws scripted 7 two_bad_packets overlapping
              _ H))) Hc).
Defined.

Lemma X12_witness :
  run scripted read_after_failure (start bad_packet)
  = Some (outcome read_after_failure (start bad_packet))
  /\ serialized read_after_failure (start bad_packet) = true
  /\ forall t1 x t2,
       trace (outcome read_after_failure (start bad_packet))
       = t1 ++ x :: t2 ->
       is_decode_failure x = true ->
       forall y, In y t2 -> is_read_done y = false.
Proof.
  assert (run scripted read_after_failure (start bad_packet)
          = Some (outcome read_after_failure (start bad_packet))) as H
      by (vm_compute; reflexivity).
  assert (serialized read_after_failure (start bad_packet) = true) as Ho
      by (vm_compute; reflexivity).
  split; [exact H|]. split; [exact Ho|].
  exact (X12_reads_hang_after_failure scripted 7 bad_packet
           read_after_failure _ H Ho).
Defined.

Lemma X13_witness :
  run scripted before_read (start play)
  = Some (outcome before_read (start play))
  /\ _blockin (this (outcome before_read (start play))) = true
  /\ exists f,
       In (Emit (ev_format f)) (trace (outcome before_read (start play)))
       /\ channels (this (outcome before_read (start play)))
          = Some (format_channels f).
Proof.
  assert (run scripted before_read (start play)
          = Some (outcome before_read (start play))) as H
      by (vm_compute; reflexivity).
  assert (_blockin (this (outcome before_read (start play))) = true) as Hb
      by (vm_compute; reflexivity).
  split; [exact H|]. split; [exact Hb|].
  exact (proj2 (proj2 (proj2
           (X13_header_properties scripted 7 play before_read _ H))) Hb).
Defined.

Lemma X14_witness :
  step scripted (Packet (pkt 3)) (outcome waiting_read (start play))
  = Some (outcome (waiting_read ++ [Packet (pkt 3)]) (start play))
  /\ existsb is_emit_blockin
       (events_since (outcome waiting_read (start play))
          (outcome (waiting_read ++ [Packet (pkt 3)]) (start play))) = true
  /\ on_blockin (this (outcome waiting_read (start play))) = [(0%nat, 4096)]
  /\ step scripted Tick
       (outcome (waiting_read ++ [Packet (pkt 3)]) (start play)) = None.
Proof.
  assert (step scripted (Packet (pkt 3)) (outcome waiting_read (start play))
          = Some (outcome (waiting_read ++ [Packet (pkt 3)]) (start play)))
    as H by (vm_compute; reflexivity).
  assert (existsb is_emit_blockin
            (events_since (outcome waiting_read (start play))
               (outcome (waiting_read ++ [Packet (pkt 3)]) (start play)))
          = true) as Hx by (vm_compute; reflexivity).
  assert (on_blockin (this (outcome waiting_read (start play)))
          = [(0%nat, 4096)]) as Hr by (vm_compute; reflexivity).
  split; [exact H|]. split; [exact Hx|]. split; [exact Hr|].
  exact (proj1 (proj2 (proj2
           (X14_block_wakes_reader scripted _ _ (pkt 3) 0%nat 4096 [] H Hx
              Hr)))).
Defined.
